(** * Filter pruning of a convolutional classifier (finetune.py)

    A shallow embedding of [FilterPrunner] (the filter importance ranker and
    the pruning planner), of [PrunningFineTuner] (the orchestrator) and of
    the two model constructors, and the properties of the specification
    that hold of them. *)

From Stdlib Require Import ZArith QArith Reals Lra Lia Bool.
From Stdlib Require SpecFloat.
From stdpp Require Import base option list sorting gmap strings.

Open Scope Z_scope.

(** ** Python values that the source relies on *)

(** Exceptions the modelled code can raise. *)
Inductive exn : Type :=
| TypeError
| NameError (name : string)
| KeyError
| IndexError
| RuntimeError
| ZeroDivisionError
| ValueError
| AttributeError.

(** A call either returns or raises. *)
Inductive result (A : Type) : Type :=
| Ok (a : A)
| Raise (e : exn).
Arguments Ok {A} a.
Arguments Raise {A} e.

#[global] Instance result_ret : MRet result := λ A a, Ok a.
#[global] Instance result_bind : MBind result := λ A B k r,
  match r with
  | Ok a => k a
  | Raise e => Raise e
  end.

(** [l[i]] on a Python list: negative indices count from the end. *)
Definition py_getitem {A : Type} (l : list A) (i : Z) : result A :=
  let n := Z.of_nat (length l) in
  let j := if Z.ltb i 0 then i + n else i in
  if Z.ltb j 0 then Raise IndexError
  else match l !! Z.to_nat j with
       | Some x => Ok x
       | None => Raise IndexError
       end.

(** ** [sorted] and [heapq.nsmallest]

    [sorted] is stable; [nsmallest(n, data, key)] is documented as
    equivalent to [sorted(data, key=key)[:n]].  Both are modelled by a stable
    insertion sort over the comparison that the key induces. *)
Section PySorted.
Context {A : Type} (le : A → A → bool).

Fixpoint insert_sorted (x : A) (l : list A) : list A :=
  match l with
  | [] => [x]
  | y :: l' => if le x y then x :: y :: l' else y :: insert_sorted x l'
  end.

Definition sorted (l : list A) : list A := foldr insert_sorted [] l.

Definition nsmallest (n : nat) (l : list A) : list A := take n (sorted l).

(** Two elements the comparison cannot tell apart. *)
Definition tied (a x : A) : bool := le a x && le x a.
End PySorted.

(** ** State and exceptions

    A method that mutates [self] and may raise: the mutations made before
    the exception was raised stay in the state. *)
Definition M (S A : Type) : Type := S → result A * S.

#[global] Instance M_ret {S} : MRet (M S) := λ A a s, (Ok a, s).
#[global] Instance M_bind {S} : MBind (M S) := λ A B k m s,
  match m s with
  | (Ok a, s') => k a s'
  | (Raise e, s') => (Raise e, s')
  end.

Definition raise {S A} (e : exn) : M S A := λ s, (Raise e, s).
Definition get {S} : M S S := λ s, (Ok s, s).
Definition modify {S} (f : S → S) : M S unit := λ s, (Ok tt, f s).
Definition lift {S A} (r : result A) : M S A := λ s, (r, s).

(** ** Tensors *)

(** The arithmetic of tensor elements.  Torch computes in single precision
    floating point; the embedding is generic in the element type.  It is
    instantiated with the binary32 numbers of IEEE 754, with the real
    numbers under a rounding function where a claim is about the size of
    the rounding error, and with integers to run the planner. *)
Class Scalar (T : Type) := {
  szero : T;
  sadd : T → T → T;
  smul : T → T → T;
  sdiv : T → T → T;
  sabs : T → T;
  ssqrt : T → T;
  sof_nat : nat → T;
  sle : T → T → bool
}.

Section Tensors.
Context {T : Type} `{Scalar T}.

(** A 4-dimensional tensor (batch, channel, height, width). *)
Record tensor : Type := Tensor {
  t_shape : nat * nat * nat * nat;
  t_at : nat → nat → nat → nat → T
}.

(** [t.size(1)] *)
Definition size1 (t : tensor) : nat := (t_shape t).1.1.2.

(** [activation * grad].  The gradient handed to a hook has the shape of
    the tensor the hook was registered on, so the product has that shape. *)
Definition tmul (a g : tensor) : tensor :=
  Tensor (t_shape a) (λ b c y x, smul (t_at a b c y x) (t_at g b c y x)).

(** [torch.sum] of a vector. *)
Definition ssum (l : list T) : T := foldl sadd szero l.

(** [t.mean(dim=(0, 2, 3))]: one mean per channel. *)
Definition mean_023 (t : tensor) : list T :=
  let '(n, c, h, w) := t_shape t in
  (λ ch, sdiv
           (ssum (b ← seq 0 n; y ← seq 0 h; x ← seq 0 w; [t_at t b ch y x]))
           (sof_nat (n * h * w)%nat)) <$> seq 0 c.

(** [torch.FloatTensor(n).zero_()] *)
Definition zeros (n : nat) : list T := replicate n szero.

(** Elementwise sum of two vectors of one length. *)
Definition vadd (a b : list T) : list T := zip_with sadd a b.

(** [a += b] on vectors: [b] is broadcast to the shape of [a]. *)
Definition viadd (a b : list T) : result (list T) :=
  if Nat.eqb (length b) (length a) then Ok (vadd a b)
  else match b with
       | [x] => Ok ((λ y, sadd y x) <$> a)
       | _ => Raise RuntimeError
       end.
End Tensors.
Arguments tensor T : clear implicits.

(** Integer scores, to run the planner, which only compares scores. *)
#[global] Instance Z_Scalar : Scalar Z := {|
  szero := 0; sadd := Z.add; smul := Z.mul; sdiv := Z.div; sabs := Z.abs;
  ssqrt := Z.sqrt; sof_nat := Z.of_nat; sle := Z.leb |}.

(** The elements of a [torch.FloatTensor]: IEEE 754 binary32, that is 24
    bits of precision and exponents below 128, every operation rounded to
    the nearest number, ties to even.  An operation that overflows returns
    an infinity, [0 / 0] and [inf / inf] return NaN. *)
Definition f32_of_Z (n : Z) : SpecFloat.spec_float :=
  SpecFloat.binary_normalize 24 128 n 0 false.

#[global] Instance F32_Scalar : Scalar SpecFloat.spec_float := {|
  szero := SpecFloat.S754_zero false;
  sadd := SpecFloat.SFadd 24 128;
  smul := SpecFloat.SFmul 24 128;
  sdiv := SpecFloat.SFdiv 24 128;
  sabs := SpecFloat.SFabs;
  ssqrt := SpecFloat.SFsqrt 24 128;
  sof_nat := λ n, f32_of_Z (Z.of_nat n);
  sle := SpecFloat.SFleb |}.

Definition R_leb (x y : R) : bool := if Rle_dec x y then true else false.

(** Floating point arithmetic as rounding error analysis has it: an
    operation returns the rounding [fl] of its exact result; taking the
    absolute value is exact. *)
Definition Rounded_Scalar (fl : R → R) : Scalar R := {|
  szero := 0%R;
  sadd := λ a b, fl (a + b)%R;
  smul := λ a b, fl (a * b)%R;
  sdiv := λ a b, fl (a / b)%R;
  sabs := Rabs;
  ssqrt := λ a, fl (sqrt a);
  sof_nat := λ n, fl (INR n);
  sle := R_leb |}.

(** ** FilterPrunner: the filter importance ranker and the planner *)

(** The value bound to a Python variable that holds an integer or a list. *)
Inductive pyval : Type :=
| PyInt (n : Z)
| PyList (l : list Z).

(** [d[k] = v]: a list is not hashable and cannot be a key. *)
Definition dict_setitem {V : Type} (d : gmap Z V) (k : pyval) (v : V)
    : result (gmap Z V) :=
  match k with
  | PyInt n => Ok (<[n := v]> d)
  | PyList _ => Raise TypeError
  end.

(** [v += n] for an integer [n]: a list cannot be extended by an integer. *)
Definition iadd_int (v : pyval) (n : Z) : result pyval :=
  match v with
  | PyInt m => Ok (PyInt (m + n))
  | PyList _ => Raise TypeError
  end.

Section FilterPrunner.
Context {T : Type} `{Scalar T}.

(** One entry of [model.features._modules]: whether it is a [Conv2d], and
    what calling it computes. *)
Record Layer : Type := {
  is_conv2d : bool;
  call : tensor T → tensor T
}.

(** The attributes of a [FilterPrunner].  [hooked] is the list of tensors
    on which [register_hook(self.compute_rank)] was called; the attributes
    that [forward] creates are present from the start, empty. *)
Record FilterPrunner : Type := {
  activations : list (tensor T);
  gradients : list (tensor T);
  grad_index : Z;
  activation_to_layer : gmap Z nat;
  filter_ranks : gmap Z (list T);
  hooked : list (tensor T)
}.

Definition set_activations f (s : FilterPrunner) : FilterPrunner :=
  {| activations := f (activations s); gradients := gradients s;
     grad_index := grad_index s;
     activation_to_layer := activation_to_layer s;
     filter_ranks := filter_ranks s; hooked := hooked s |}.
Definition set_gradients f (s : FilterPrunner) : FilterPrunner :=
  {| activations := activations s; gradients := f (gradients s);
     grad_index := grad_index s;
     activation_to_layer := activation_to_layer s;
     filter_ranks := filter_ranks s; hooked := hooked s |}.
Definition set_grad_index f (s : FilterPrunner) : FilterPrunner :=
  {| activations := activations s; gradients := gradients s;
     grad_index := f (grad_index s);
     activation_to_layer := activation_to_layer s;
     filter_ranks := filter_ranks s; hooked := hooked s |}.
Definition set_activation_to_layer f (s : FilterPrunner) : FilterPrunner :=
  {| activations := activations s; gradients := gradients s;
     grad_index := grad_index s;
     activation_to_layer := f (activation_to_layer s);
     filter_ranks := filter_ranks s; hooked := hooked s |}.
Definition set_filter_ranks f (s : FilterPrunner) : FilterPrunner :=
  {| activations := activations s; gradients := gradients s;
     grad_index := grad_index s;
     activation_to_layer := activation_to_layer s;
     filter_ranks := f (filter_ranks s); hooked := hooked s |}.
Definition set_hooked f (s : FilterPrunner) : FilterPrunner :=
  {| activations := activations s; gradients := gradients s;
     grad_index := grad_index s;
     activation_to_layer := activation_to_layer s;
     filter_ranks := filter_ranks s; hooked := f (hooked s) |}.

(** [reset]: [self.filter_ranks = {}] *)
Definition reset (s : FilterPrunner) : FilterPrunner :=
  set_filter_ranks (λ _, ∅) s.

(** The body of the loop of [forward], over
    [enumerate(self.model.features._modules.items())].  The call of a layer
    is taken to return, [call module x] is its result; a layer that rejects
    its input raises at that point, before anything is stored for it. *)
Fixpoint forward_loop (modules : list (nat * Layer)) (x : tensor T)
    (activation_index : pyval) : M FilterPrunner (tensor T) :=
  match modules with
  | [] => mret x
  | (layer, module) :: rest =>
      let x := call module x in
      if is_conv2d module then
        modify (set_hooked (λ l, l ++ [x]));;
        modify (set_activations (λ l, l ++ [x]));;
        s ← get;
        d ← lift (dict_setitem (activation_to_layer s) activation_index layer);
        modify (set_activation_to_layer (λ _, d));;
        activation_index ← lift (iadd_int activation_index 1);
        forward_loop rest x activation_index
      else forward_loop rest x activation_index
  end.

(** [forward]; [head] is [self.model.classifier] applied to the flattened
    feature map, [x.view(x.size(0), -1)]. *)
Definition forward {Out : Type} (features : list Layer)
    (head : tensor T → Out) (x : tensor T) : M FilterPrunner Out :=
  modify (set_activations (λ _, []));;
  modify (set_gradients (λ _, []));;
  modify (set_grad_index (λ _, 0));;
  modify (set_activation_to_layer (λ _, ∅));;
  let activation_index := PyList [] in
  x ← forward_loop (imap pair features) x activation_index;
  mret (head x).

(** [compute_rank].  Moving the new entry to the GPU under
    [args.use_cuda] does not change its value and is left out. *)
Definition compute_rank (grad : tensor T) : M FilterPrunner unit :=
  s ← get;
  let activation_index :=
    Z.of_nat (length (activations s)) - grad_index s - 1 in
  activation ← lift (py_getitem (activations s) activation_index);
  let taylor := mean_023 (tmul activation grad) in
  (if decide (filter_ranks s !! activation_index = None)
   then modify (set_filter_ranks
                  (λ m, <[activation_index := zeros (size1 activation)]> m))
   else mret tt);;
  s ← get;
  entry ← lift (match filter_ranks s !! activation_index with
                | Some v => Ok v
                | None => Raise KeyError
                end);
  sum ← lift (viadd entry taylor);
  modify (set_filter_ranks (λ m, <[activation_index := sum]> m));;
  modify (set_grad_index (λ k, k + 1)).

(** The hooks of one backward pass: autograd calls [compute_rank] once per
    gradient, in the order in which the gradients arrive. *)
Fixpoint callbacks (arriving : list (tensor T)) : M FilterPrunner unit :=
  match arriving with
  | [] => mret tt
  | grad :: rest => compute_rank grad;; callbacks rest
  end.

(** One batch of a ranking pass, as the ranker sees it: the forward pass has
    recorded the activations [acts] of the convolutional layers in forward
    order and has reset the callback counter; backpropagation then delivers
    the gradients [grads] of these activations, the last layer's first. *)
Definition ranking_batch (acts grads : list (tensor T))
    : M FilterPrunner unit :=
  modify (set_activations (λ _, acts));;
  modify (set_gradients (λ _, []));;
  modify (set_grad_index (λ _, 0));;
  callbacks (reverse grads).

(** A ranking pass: [reset], then the batches one after the other. *)
Fixpoint ranking_batches (batches : list (list (tensor T) * list (tensor T)))
    : M FilterPrunner unit :=
  match batches with
  | [] => mret tt
  | (acts, grads) :: rest => ranking_batch acts grads;; ranking_batches rest
  end.

Definition ranking_pass (batches : list (list (tensor T) * list (tensor T)))
    : M FilterPrunner unit :=
  modify reset;; ranking_batches batches.


(** A triple [(layer_index, filter_index, score)]. *)
Definition triple : Type := nat * nat * T.

(** Compares two triples by [itemgetter(2)]. *)
Definition by_score (a b : triple) : bool := sle a.2 b.2.

(** The inner loop of [lowest_ranking_filters], from index [j] on. *)
Fixpoint rows (a2l : gmap Z nat) (i : Z) (j : nat) (v : list T)
    : result (list triple) :=
  match v with
  | [] => Ok []
  | score :: v' =>
      match a2l !! i with
      | None => Raise KeyError
      | Some layer =>
          rest ← rows a2l i (S j) v';
          Ok ((layer, j, score) :: rest)
      end
  end.

(** The outer loop of [lowest_ranking_filters], over the sorted keys. *)
Fixpoint collect (a2l : gmap Z nat) (items : list (Z * list T))
    : result (list triple) :=
  match items with
  | [] => Ok []
  | (i, v) :: items' =>
      here ← rows a2l i 0 v;
      rest ← collect a2l items';
      Ok (here ++ rest)
  end.

(** The entries of a dict, by ascending key: what a loop over
    [sorted(d.keys())] that reads [d[i]] goes through. *)
Definition sorted_items (d : gmap Z (list T)) : list (Z * list T) :=
  sorted (λ a b, Z.leb a.1 b.1) (map_to_list d).

Definition lowest_ranking_filters (s : FilterPrunner) (num : nat)
    : result (list triple) :=
  data ← collect (activation_to_layer s) (sorted_items (filter_ranks s));
  Ok (nsmallest by_score num data).

(** [v = abs(r); v / sqrt(sum(v * v))] *)
Definition normalize_vec (r : list T) : list T :=
  let v := sabs <$> r in
  let norm := ssqrt (ssum (zip_with smul v v)) in
  (λ x, sdiv x norm) <$> v.

(** [normalize_ranks_per_layer]: every entry is replaced by its
    normalized vector. *)
Definition normalize_ranks_per_layer (s : FilterPrunner) : FilterPrunner :=
  set_filter_ranks (λ m, normalize_vec <$> m) s.

(** [d[l].append(f)], creating [d[l] = []] first when [l] is not a key.
    The dict keeps its keys in insertion order. *)
Fixpoint dict_append (l f : nat) (d : list (nat * list nat))
    : list (nat * list nat) :=
  match d with
  | [] => [(l, [f])]
  | (l', fs) :: d' =>
      if Nat.eqb l l' then (l', fs ++ [f]) :: d'
      else (l', fs) :: dict_append l f d'
  end.

(** The first loop of [get_prunning_plan]. *)
Definition group_by_layer (filters_to_prune : list triple)
    : list (nat * list nat) :=
  foldl (λ d t, dict_append t.1.1 t.1.2 d) [] filters_to_prune.

(** The second loop, for one layer: sort, then subtract from every index
    its position. *)
Definition adjust (fs : list nat) : list Z :=
  imap (λ i f, Z.of_nat f - Z.of_nat i) (sorted Nat.leb fs).

(** The body of [get_prunning_plan] after the call of
    [lowest_ranking_filters]. *)
Definition plan_of (filters_to_prune : list triple) : list (nat * Z) :=
  let per_layer := group_by_layer filters_to_prune in
  let per_layer := (λ e, (e.1, adjust e.2)) <$> per_layer in
  e ← per_layer; pair e.1 <$> e.2.

Definition get_prunning_plan (s : FilterPrunner) (num_filters_to_prune : nat)
    : result (list (nat * Z)) :=
  filters_to_prune ← lowest_ranking_filters s num_filters_to_prune;
  Ok (plan_of filters_to_prune).
End FilterPrunner.
Arguments Layer T : clear implicits.
Arguments FilterPrunner T : clear implicits.
Arguments triple T : clear implicits.

(** ** The layer surgeon, as far as a pruning plan is concerned *)
Section Surgeon.
Context {F : Type}.

(** Modelled from the spec: [prune_vgg16_conv_layer] of prune.py is not
    among the sources.  A network is reduced to the filters of its
    convolutional layers; removing a filter is an error if the layer index
    does not reference a convolutional layer or the filter index is out of
    bounds, and otherwise drops the filter at that index from that layer. *)
Definition remove_filter (net : gmap nat (list F)) (layer_index : nat)
    (filter_index : Z) : option (gmap nat (list F)) :=
  fs ← net !! layer_index;
  if decide (0 ≤ filter_index < Z.of_nat (length fs))
  then Some (<[layer_index := delete (Z.to_nat filter_index) fs]> net)
  else None.

(** The removals of a plan, one pair at a time in plan order, each from
    the network that the previous removals left. *)
Fixpoint apply_plan (plan : list (nat * Z)) (net : gmap nat (list F))
    : option (gmap nat (list F)) :=
  match plan with
  | [] => Some net
  | (layer_index, filter_index) :: rest =>
      net' ← remove_filter net layer_index filter_index;
      apply_plan rest net'
  end.

(** The filters of a layer without those whose index, in the layer as it
    is, belongs to [selected]: all of them removed at once. *)
Definition remove_simultaneously (selected : list nat) (fs : list F)
    : list F :=
  (filter (λ ix, ix.1 ∉ selected) (imap pair fs)).*2.

(** Simultaneous removal, by recursion on the layer: the predicate tells
    which positions of the rest of the list are selected. *)
Fixpoint remove_where (P : nat → bool) (xs : list F) : list F :=
  match xs with
  | [] => []
  | x :: xs' =>
      if P 0%nat then remove_where (P ∘ S) xs'
      else x :: remove_where (P ∘ S) xs'
  end.

(** The removals of one layer, one index at a time. *)
Fixpoint remove_seq (adjusted : list Z) (xs : list F) : option (list F) :=
  match adjusted with
  | [] => Some xs
  | i :: rest =>
      if decide (0 ≤ i < Z.of_nat (length xs))
      then remove_seq rest (delete (Z.to_nat i) xs)
      else None
  end.
End Surgeon.

(** The filter indices that a list of triples selects in one layer. *)
Definition selected_in {T : Type} (layer : nat) (triples : list (triple T))
    : list nat :=
  (λ t, t.1.2) <$> filter (λ t : triple T, t.1.1 = layer) triples.

(** ** Parameters, modules and models *)

(** The arithmetic of parameter tensors that the optimizer uses. *)
Class ParamOps (V : Type) := {
  vzero : V;
  vplus : V → V → V;
  vscale : Q → V → V
}.

#[global] Instance Q_ParamOps : ParamOps Q := {|
  vzero := 0%Q; vplus := Qplus; vscale := Qmult |}.

Section Models.
Context {T V Logits : Type}.

(** A parameter object: its tensor, its accumulated gradient, the
    [requires_grad] flag of the tensor, and the instance dictionary that
    receives any other attribute assigned on it. *)
Record Param : Type := {
  p_data : V;
  p_grad : option V;
  requires_grad : bool;
  p_dict : gmap string bool
}.

(** [setattr(param, name, b)] *)
Definition setattr (name : string) (b : bool) (p : Param) : Param :=
  if decide (name = "requires_grad")
  then {| p_data := p_data p; p_grad := p_grad p; requires_grad := b;
          p_dict := p_dict p |}
  else {| p_data := p_data p; p_grad := p_grad p;
          requires_grad := requires_grad p;
          p_dict := <[name := b]> (p_dict p) |}.

Definition set_p_data (v : V) (p : Param) : Param :=
  {| p_data := v; p_grad := p_grad p; requires_grad := requires_grad p;
     p_dict := p_dict p |}.
Definition set_p_grad (g : option V) (p : Param) : Param :=
  {| p_data := p_data p; p_grad := g; requires_grad := requires_grad p;
     p_dict := p_dict p |}.

(** The parameter objects, by identity: a model and an optimizer refer
    to the same objects. *)
Local Abbreviation heap := (gmap nat Param).

(** One module of [features]: [conv2d] is [Some out_channels] for a
    [Conv2d] and [None] for any other module. *)
Record Module : Type := {
  conv2d : option nat;
  m_parameters : list nat;
  m_call : heap → tensor T → tensor T
}.

(** A [Model] or [MobileModel]: the backbone, the parameters of
    [classifier], those of [linear] (a [MobileModel] only), and what the
    head computes from the feature map. *)
Record Model : Type := {
  features : list Module;
  classifier : list nat;
  linear : list nat;
  head : heap → tensor T → Logits
}.

(** [model.features.parameters()] *)
Definition features_parameters (m : Model) : list nat :=
  md ← features m; m_parameters md.

(** [model.parameters()] *)
Definition parameters (m : Model) : list nat :=
  features_parameters m ++ classifier m ++ linear m.

(** [for param in ps: param.<name> = b] *)
Definition setattr_all (name : string) (b : bool) (ps : list nat) (h : heap)
    : heap :=
  foldl (λ h a, alter (setattr name b) a h) h ps.

(** [Model.__init__].  The arguments are what the calls of torchvision and
    torch.nn in it deliver: the backbone of [models.vgg16(pretrained=True)],
    the parameters of the new [nn.Linear(25088, 2)], the heap that holds
    the parameter objects of both, and the function of the head. *)
Definition Model_init (vgg16_features : list Module) (fc : list nat)
    (hd : heap → tensor T → Logits) (h : heap) : Model * heap :=
  let self := {| features := vgg16_features; classifier := fc;
                 linear := []; head := hd |} in
  (self, setattr_all "required_grad" false (features_parameters self) h).

(** [MobileModel.__init__]: its [classifier] (dropout and pooling) has no
    parameters, the new [nn.Linear(1280, 2)] is [linear]. *)
Definition MobileModel_init (mobilenet_features : list Module)
    (fc : list nat) (hd : heap → tensor T → Logits) (h : heap)
    : Model * heap :=
  let self := {| features := mobilenet_features; classifier := [];
                 linear := fc; head := hd |} in
  (self, setattr_all "required_grad" false (features_parameters self) h).

(** [model.state_dict()]: the tensor of every parameter of the model. *)
Definition state_dict (m : Model) (h : heap) : gmap nat V :=
  list_to_map (omap (λ a, (λ p, (a, p_data p)) <$> h !! a) (parameters m)).

(** What [torch.save] can be handed: the dictionary that [state_dict()]
    returns, a model, or a method object, which carries the instance it is
    bound to and the name of the method. *)
Inductive Artifact : Type :=
| SavedStateDict (d : gmap nat V)
| SavedModel (m : Model) (h : heap)
| SavedBoundMethod (self : Model) (h : heap) (name : string).
End Models.
Arguments Param V : clear implicits.
Arguments Module T V : clear implicits.
Arguments Model T V Logits : clear implicits.
Arguments Artifact T V Logits : clear implicits.

(** ** [optim.SGD] *)
Section SGD.
Context {V : Type} `{ParamOps V}.

(** An SGD optimizer: the parameter objects it was given, its learning rate
    and momentum, and its momentum buffers. *)
Record SGD : Type := {
  o_params : list nat;
  o_lr : Q;
  o_momentum : Q;
  o_buf : gmap nat V
}.

(** [optim.SGD(params, lr=lr, momentum=momentum)] *)
Definition SGD_init (ps : list nat) (lr momentum : Q) : result SGD :=
  match ps with
  | [] => Raise ValueError
  | _ => Ok {| o_params := ps; o_lr := lr; o_momentum := momentum;
               o_buf := ∅ |}
  end.

(** The update of one parameter of the optimizer. *)
Definition step_param (lr momentum : Q) (st : gmap nat (Param V) * gmap nat V)
    (a : nat) : gmap nat (Param V) * gmap nat V :=
  let '(h, bufs) := st in
  match h !! a with
  | None => st
  | Some p =>
      match p_grad p with
      | None => st
      | Some d_p =>
          let buf :=
            if Qeq_bool momentum 0 then None
            else Some (match bufs !! a with
                       | None => d_p
                       | Some b => vplus (vscale momentum b) d_p
                       end) in
          let d_p := default d_p buf in
          let bufs := match buf with
                      | Some b => <[a := b]> bufs
                      | None => bufs
                      end in
          (<[a := set_p_data (vplus (p_data p) (vscale (- lr) d_p)) p]> h,
           bufs)
      end
  end.

(** [optimizer.step()] *)
Definition SGD_step (o : SGD) (h : gmap nat (Param V))
    : SGD * gmap nat (Param V) :=
  let '(h', bufs) :=
    foldl (step_param (o_lr o) (o_momentum o)) (h, o_buf o) (o_params o) in
  ({| o_params := o_params o; o_lr := o_lr o; o_momentum := o_momentum o;
      o_buf := bufs |}, h').
End SGD.
Arguments SGD V : clear implicits.

(** ** PrunningFineTuner: the orchestrator *)
Section PrunningFineTuner.
Context {T : Type} `{Scalar T} {V : Type} `{ParamOps V}.
Context {Label Logits : Type}.

(** What autograd and the metric deliver: the gradient of the cross-entropy
    loss of the model on a batch with respect to the parameter at an address,
    the number of examples of a batch the model classifies correctly, and
    [label.size(0)]. *)
Variable autograd :
  gmap nat (Param V) → Model T V Logits → tensor T → Label → nat → V.
Variable n_correct :
  gmap nat (Param V) → Model T V Logits → tensor T → Label → nat.
Variable label_size : Label → nat.

(** What the run does to its collaborators, in order. *)
Inductive Event : Type :=
| EvEpoch (rank_filters : bool) (ranks : gmap Z (list T))
| EvRankerForward
| EvBackward
| EvStep
| EvAccuracy (correct total : nat).

(** The attributes of a [PrunningFineTuner], the parameter objects of its
    model, the files written, and the trace of events.  The module-level
    [model] that [test] and [train] read is the object [self.model]. *)
Record PrunningFineTuner : Type := {
  train_data_loader : list (tensor T * Label);
  test_data_loader : list (tensor T * Label);
  model : Model T V Logits;
  params : gmap nat (Param V);
  training : bool;
  prunner : FilterPrunner T;
  files : gmap string (Artifact T V Logits);
  trace : list Event
}.

Definition set_params f (s : PrunningFineTuner) : PrunningFineTuner :=
  {| train_data_loader := train_data_loader s;
     test_data_loader := test_data_loader s; model := model s;
     params := f (params s); training := training s; prunner := prunner s;
     files := files s; trace := trace s |}.
Definition set_training f (s : PrunningFineTuner) : PrunningFineTuner :=
  {| train_data_loader := train_data_loader s;
     test_data_loader := test_data_loader s; model := model s;
     params := params s; training := f (training s); prunner := prunner s;
     files := files s; trace := trace s |}.
Definition set_prunner f (s : PrunningFineTuner) : PrunningFineTuner :=
  {| train_data_loader := train_data_loader s;
     test_data_loader := test_data_loader s; model := model s;
     params := params s; training := training s; prunner := f (prunner s);
     files := files s; trace := trace s |}.
Definition set_files f (s : PrunningFineTuner) : PrunningFineTuner :=
  {| train_data_loader := train_data_loader s;
     test_data_loader := test_data_loader s; model := model s;
     params := params s; training := training s; prunner := prunner s;
     files := f (files s); trace := trace s |}.
Definition set_trace f (s : PrunningFineTuner) : PrunningFineTuner :=
  {| train_data_loader := train_data_loader s;
     test_data_loader := test_data_loader s; model := model s;
     params := params s; training := training s; prunner := prunner s;
     files := files s; trace := f (trace s) |}.

Definition log (e : Event) : M PrunningFineTuner unit :=
  modify (set_trace (λ t, t ++ [e])).

(** A method of [self.prunner], run on the [prunner] attribute. *)
Definition on_prunner {A : Type} (m : M (FilterPrunner T) A)
    : M PrunningFineTuner A :=
  λ s, let '(r, p) := m (prunner s) in (r, set_prunner (λ _, p) s).

(** [PrunningFineTuner.__init__]: [FilterPrunner(self.model)] resets the
    new ranker, [self.model.train()] sets the training mode. *)
Definition PrunningFineTuner_init (train_loader test_loader :
    list (tensor T * Label)) (m : Model T V Logits) (h : gmap nat (Param V))
    : PrunningFineTuner :=
  {| train_data_loader := train_loader; test_data_loader := test_loader;
     model := m; params := h; training := true;
     prunner := reset {| activations := []; gradients := []; grad_index := 0;
                         activation_to_layer := ∅; filter_ranks := ∅;
                         hooked := [] |};
     files := ∅; trace := [] |}.

(** [model.zero_grad()]: every gradient that exists is zeroed. *)
Definition zero_grad (ps : list nat) (h : gmap nat (Param V))
    : gmap nat (Param V) :=
  foldl (λ h a, alter (λ p, set_p_grad ((λ _, vzero) <$> p_grad p) p) a h)
        h ps.

(** [loss.backward()] on the plain model: every parameter that requires a
    gradient accumulates the one autograd computes for it. *)
Definition backward (g : nat → V) (ps : list nat) (h : gmap nat (Param V))
    : gmap nat (Param V) :=
  foldl (λ h a,
           alter (λ p, if requires_grad p
                       then set_p_grad (Some (match p_grad p with
                                              | None => g a
                                              | Some old => vplus old (g a)
                                              end)) p
                       else p) a h)
        h ps.

(** The modules of the backbone as the ranker calls them. *)
Definition layers (s : PrunningFineTuner) : list (Layer T) :=
  (λ md, {| is_conv2d := bool_decide (is_Some (conv2d md));
            call := m_call md (params s) |}) <$> features (model s).

(** [test]: the accuracy on the test loader is printed.  The network is
    taken to return on every batch, and [n_correct] is the number of
    correct predictions in its output; a call of the network that raises
    ends [test] at that point, with the model in evaluation mode. *)
Definition test : M PrunningFineTuner unit :=
  modify (set_training (λ _, false));;
  s ← get;
  let '(correct, total) :=
    foldl (λ ct bl, ((ct.1 + n_correct (params s) (model s) bl.1 bl.2)%nat,
                     (ct.2 + label_size bl.2)%nat))
          (0%nat, 0%nat) (test_data_loader s) in
  (if decide (total = 0%nat) then raise ZeroDivisionError else mret tt);;
  log (EvAccuracy correct total);;
  modify (set_training (λ _, true)).

(** [train_batch].  Moving the batch to the GPU is left out.  In the
    ranking branch the name [sekf] is not bound.  In the other branch the
    forward pass, the loss and the backward pass are taken to return, and
    [autograd] is the gradient they deliver for a parameter. *)
Definition train_batch (optimizer : option (SGD V)) (batch : tensor T)
    (label : Label) (rank_filters : bool)
    : M PrunningFineTuner (option (SGD V)) :=
  s ← get;
  modify (set_params (zero_grad (parameters (model s))));;
  let input := batch in
  if rank_filters then
    s ← get;
    log EvRankerForward;;
    output ← on_prunner (forward (layers s) (head (model s) (params s)) input);
    raise (NameError "sekf")
  else
    s ← get;
    modify (set_params
              (backward (autograd (params s) (model s) input label)
                        (parameters (model s))));;
    log EvBackward;;
    match optimizer with
    | None => raise AttributeError
    | Some o =>
        s ← get;
        let '(o', h) := SGD_step o (params s) in
        modify (set_params (λ _, h));;
        log EvStep;;
        mret (Some o')
    end.

(** The loop of [train_epoch]. *)
Fixpoint train_batches (data : list (tensor T * Label))
    (optimizer : option (SGD V)) (rank_filters : bool)
    : M PrunningFineTuner (option (SGD V)) :=
  match data with
  | [] => mret optimizer
  | (batch, label) :: rest =>
      optimizer ← train_batch optimizer batch label rank_filters;
      train_batches rest optimizer rank_filters
  end.

(** [train_epoch]; the trace records with which rank table it starts. *)
Definition train_epoch (optimizer : option (SGD V)) (rank_filters : bool)
    : M PrunningFineTuner (option (SGD V)) :=
  s ← get;
  log (EvEpoch rank_filters (filter_ranks (prunner s)));;
  train_batches (train_data_loader s) optimizer rank_filters.

(** The loop of [train]. *)
Fixpoint train_epochs (epochs : nat) (optimizer : option (SGD V))
    : M PrunningFineTuner unit :=
  match epochs with
  | O => mret tt
  | S epochs' =>
      optimizer ← train_epoch optimizer false;
      test;;
      train_epochs epochs' optimizer
  end.

(** [train] *)
Definition train (optimizer : option (SGD V)) (epochs : nat)
    : M PrunningFineTuner unit :=
  optimizer ← match optimizer with
              | Some o => mret o
              | None =>
                  s ← get;
                  lift (SGD_init (classifier (model s)) (1 # 10000) (9 # 10))
              end;
  train_epochs epochs (Some optimizer).

(** [get_candidates_to_prune]: the argument of the call of
    [get_prunning_plan] is the unbound name [num_filter_to_prune]. *)
Definition get_candidates_to_prune (num_filters_to_prune : nat)
    : M PrunningFineTuner (list (nat * Z)) :=
  on_prunner (modify reset);;
  train_epoch None true;;
  on_prunner (modify normalize_ranks_per_layer);;
  raise (NameError "num_filter_to_prune").

(** [total_num_filters]: the loop assigns [fitlers] and returns [filters]. *)
Definition total_num_filters (s : PrunningFineTuner) : Z :=
  let '(filters, fitlers) :=
    foldl (λ (vars : Z * Z) md,
             let '(filters, fitlers) := vars in
             match conv2d md with
             | Some out_channels => (filters, filters + Z.of_nat out_channels)
             | None => (filters, fitlers)
             end)
          (0, 0) (features (model s)) in
  filters.

(** One iteration of the loop of [prune].  The first loop over the targets
    reads [layer_index], which is bound only later in the function, and the
    statement after it reads the unbound name [layer_prunned]: whatever the
    targets are, the iteration ends there, and the statements after it
    (surgery, evaluation, recovery fine-tuning) are never reached. *)
Definition prune_iteration (num_filters_to_prune_per_iteration : nat)
    : M PrunningFineTuner unit :=
  prune_targets ← get_candidates_to_prune num_filters_to_prune_per_iteration;
  match prune_targets with
  | _ :: _ => raise (NameError "layer_index")
  | [] => raise (NameError "layer_prunned")
  end.

Fixpoint prune_iterations (iterations : nat)
    (num_filters_to_prune_per_iteration : nat) : M PrunningFineTuner unit :=
  match iterations with
  | O => mret tt
  | S iterations' =>
      prune_iteration num_filters_to_prune_per_iteration;;
      prune_iterations iterations' num_filters_to_prune_per_iteration
  end.

(** The iteration count of [prune]:
    [int(int(float(n) / 512) * 2.0 / 3)], where [int] truncates. *)
Definition prune_iteration_count (number_of_filters : Z)
    (num_filters_to_prune_per_iteration : Z) : Z :=
  let iterations :=
    Z.quot number_of_filters num_filters_to_prune_per_iteration in
  Z.quot (iterations * 2) 3.

(** [torch.save(obj, name)] *)
Definition torch_save (obj : Artifact T V Logits) (name : string)
    : M PrunningFineTuner unit :=
  modify (set_files (λ fs, <[name := obj]> fs)).

(** [prune].  What is handed to [torch.save] is the method
    [model.state_dict], not the result of calling it. *)
Definition prune : M PrunningFineTuner unit :=
  test;;
  modify (set_training (λ _, true));;
  s ← get;
  modify (set_params
            (setattr_all "requires_grad" true
                         (features_parameters (model s))));;
  s ← get;
  let number_of_filters := total_num_filters s in
  let num_filters_to_prune_per_iteration := 512%nat in
  let iterations :=
    prune_iteration_count number_of_filters
      (Z.of_nat num_filters_to_prune_per_iteration) in
  prune_iterations (Z.to_nat iterations) num_filters_to_prune_per_iteration;;
  s ← get;
  optimizer ← lift (SGD_init (parameters (model s)) (1 # 1000) (9 # 10));
  train (Some optimizer) 1;;
  s ← get;
  torch_save (SavedBoundMethod (model s) (params s) "state_dict")
             "model_prunned".
End PrunningFineTuner.
Arguments Event T : clear implicits.
Arguments PrunningFineTuner T V Label Logits : clear implicits.

(** [d.get(l, [])] on the insertion-ordered dict of [get_prunning_plan]. *)
Fixpoint dict_get (l : nat) (d : list (nat * list nat)) : list nat :=
  match d with
  | [] => []
  | (l', fs) :: d' => if Nat.eqb l l' then fs else dict_get l d'
  end.

(** The triples of a rank table in enumeration order: by ascending activation
    index, then by filter index. *)
Definition enumeration {T : Type} (a2l : gmap Z nat) (ranks : gmap Z (list T))
    : list (triple T) :=
  iv ← sorted (λ a b : Z * list T, Z.leb a.1 b.1) (map_to_list ranks);
  imap (λ j score, (default 0%nat (a2l !! iv.1), j, score)) iv.2.

(** The number of filters a rank table holds. *)
Definition total_filters {T : Type} (ranks : gmap Z (list T)) : nat :=
  sum_list_with (λ iv, length iv.2) (map_to_list ranks).

(** What a method may do to the state, and what it returns: [spec_at R s m Q]
    says that running [m] from [s] ends in a state related to [s] by [R],
    and that a returned value satisfies [Q]. *)
Definition spec_at {S A : Type} (R : S → S → Prop) (s : S) (m : M S A)
    (Q : A → Prop) : Prop :=
  ∀ r s', m s = (r, s') → R s s' ∧ ∀ a, r = Ok a → Q a.

(** How a run of the fine-tuner may change its state: the model and the
    loaders stay, the trace grows by events that satisfy [P], and the
    tensors of the parameters at the addresses in [A] stay. *)
Definition evolves {T V Label Logits : Type} (P : Event T → Prop)
    (A : nat → Prop) (s s' : PrunningFineTuner T V Label Logits) : Prop :=
  model s' = model s
  ∧ train_data_loader s' = train_data_loader s
  ∧ test_data_loader s' = test_data_loader s
  ∧ (∃ new, trace s' = trace s ++ new ∧ Forall P new)
  ∧ (∀ a, A a → p_data <$> params s' !! a = p_data <$> params s !! a).


(** An optimizer that leaves the addresses in [A] alone. *)
Definition spares {V : Type} (A : nat → Prop) (optimizer : option (SGD V))
    : Prop :=
  ∀ o, optimizer = Some o → ∀ a, A a → a ∉ o_params o.

(** What a run of training and evaluation may change: the tensors and the
    gradients of the parameters, the training mode and the trace.  The
    model, the loaders, the ranker, the files, and for every parameter its
    [requires_grad] flag and its instance dictionary stay, and the trace
    grows by events that satisfy [P]. *)
Definition keeps_objects {T V Label Logits : Type} (P : Event T → Prop)
    (s s' : PrunningFineTuner T V Label Logits) : Prop :=
  model s' = model s
  ∧ train_data_loader s' = train_data_loader s
  ∧ test_data_loader s' = test_data_loader s
  ∧ prunner s' = prunner s
  ∧ files s' = files s
  ∧ (∃ new, trace s' = trace s ++ new ∧ Forall P new)
  ∧ (∀ a, requires_grad <$> params s' !! a = requires_grad <$> params s !! a)
  ∧ (∀ a, p_dict <$> params s' !! a = p_dict <$> params s !! a).

(** The events of training and evaluation outside ranking mode. *)
Definition plain_event {T : Type} (ev : Event T) : Prop :=
  match ev with
  | EvEpoch rank_filters _ => rank_filters = false
  | EvRankerForward => False
  | EvBackward | EvStep | EvAccuracy _ _ => True
  end.

(** What a run of [prune] keeps: the model and the ranker stay, and the
    trace grows by events that satisfy [P]. *)
Definition keeps_model {T V Label Logits : Type} (P : Event T → Prop)
    (s s' : PrunningFineTuner T V Label Logits) : Prop :=
  model s' = model s
  ∧ prunner s' = prunner s
  ∧ (∃ new, trace s' = trace s ++ new ∧ Forall P new).

(** The squared L2 norm of a real vector, in exact arithmetic. *)
Definition l2_norm_sq (v : list R) : R := foldr (λ x a, x * x + a)%R 0%R v.




(** The counts that [test] prints: correctly classified examples and
    examples of the test loader. *)
Definition accuracy_counts {T V Label Logits : Type}
    (n_correct :
       gmap nat (Param V) → Model T V Logits → tensor T → Label → nat)
    (label_size : Label → nat) (s : PrunningFineTuner T V Label Logits)
    : nat * nat :=
  foldl (λ ct bl, ((ct.1 + n_correct (params s) (model s) bl.1 bl.2)%nat,
                   (ct.2 + label_size bl.2)%nat))
        (0%nat, 0%nat) (test_data_loader s).

(** ** The command line entry point *)
Section Main.
Context {T : Type} `{Scalar T} {V : Type} `{ParamOps V}.
Context {Label Logits : Type}.
Variable autograd :
  gmap nat (Param V) → Model T V Logits → tensor T → Label → nat → V.
Variable n_correct :
  gmap nat (Param V) → Model T V Logits → tensor T → Label → nat.
Variable label_size : Label → nat.

(** The flags of [get_args]; the two paths select the loaders, which are
    arguments of [main]. *)
Record Args : Type := {
  a_train : bool;
  a_prune : bool;
  a_use_cuda : bool
}.

(** [get_args]: the flags as parsed, with [use_cuda] kept only if an
    accelerator is available. *)
Definition get_args (train prune use_cuda cuda_is_available : bool) : Args :=
  {| a_train := train; a_prune := prune;
     a_use_cuda := use_cuda && cuda_is_available |}.

(** The module-level code under [__main__].  The first four arguments are
    those of [Model_init], [torch_load] is what [torch.load] delivers for a
    file name, the loaders are those of the two paths.  Moving the model to
    the GPU does not change it; when no mode is selected, [model] is unbound
    where it is first read.  The result comes with the fine-tuner, if one
    was built. *)
Definition main (args : Args)
    (vgg16_features : list (Module T V)) (fc : list nat)
    (hd : gmap nat (Param V) → tensor T → Logits) (h0 : gmap nat (Param V))
    (torch_load : string → result (Model T V Logits * gmap nat (Param V)))
    (train_loader test_loader : list (tensor T * Label))
    : result unit * option (PrunningFineTuner T V Label Logits) :=
  let bound :=
    if a_train args then Ok (Some (Model_init vgg16_features fc hd h0))
    else if a_prune args then
      match torch_load "model" with
      | Ok loaded => Ok (Some loaded)
      | Raise e => Raise e
      end
    else Ok None in
  match bound with
  | Raise e => (Raise e, None)
  | Ok None => (Raise (NameError "model"), None)
  | Ok (Some (m, h)) =>
      let fine_tuner :=
        PrunningFineTuner_init train_loader test_loader m h in
      let run :=
        if a_train args then
          train autograd n_correct label_size None 10;;
          s ← get;
          torch_save (SavedModel (model s) (params s)) "model/vgg.pth"
        else if a_prune args then prune autograd n_correct label_size
        else mret tt in
      let '(r, s) := run fine_tuner in
      (r, Some s)
  end.
End Main.

(** ** Examples *)

(** Integer-valued rankers and layers, to run the definitions. *)
Definition ranker_example : FilterPrunner Z :=
  {| activations := []; gradients := []; grad_index := 0;
     activation_to_layer := {[0 := 0%nat; 1 := 2%nat]};
     filter_ranks := {[1 := [5; 1; 7; 1; 3]; 0 := [4; 1; 0]]};
     hooked := [] |}.

Definition net_example : gmap nat (list string) :=
  {[0%nat := ["a0"; "a1"; "a2"]; 2%nat := ["b0"; "b1"; "b2"; "b3"; "b4"]]}.

Definition act_example (n : Z) (c : nat) : tensor Z :=
  Tensor (2, c, 1, 2)%nat (λ b ch y x, n + Z.of_nat (b + 2 * ch + x)).

Definition batches_example : list (list (tensor Z) * list (tensor Z)) :=
  [([act_example 1 2; act_example 2 1], [act_example 3 2; act_example 4 1]);
   ([act_example 5 2; act_example 6 1], [act_example 7 2; act_example 8 1])].

(** Single precision activations and gradients of a network with two
    convolutional layers, of two filters and of one, in two batches of two
    images of one row and two columns. *)
Definition act_f32 (n : Z) (c : nat) : tensor SpecFloat.spec_float :=
  Tensor (2, c, 1, 2)%nat
         (λ b ch y x, f32_of_Z (n + Z.of_nat (b + 2 * ch + x))).

Definition batches_f32
    : list (list (tensor SpecFloat.spec_float)
            * list (tensor SpecFloat.spec_float)) :=
  [([act_f32 1 2; act_f32 2 1], [act_f32 3 2; act_f32 4 1]);
   ([act_f32 5 2; act_f32 6 1], [act_f32 7 2; act_f32 8 1])].

Definition ranker_f32 : FilterPrunner SpecFloat.spec_float :=
  {| activations := []; gradients := []; grad_index := 0;
     activation_to_layer := ∅;
     filter_ranks := {[0 := [SpecFloat.S754_zero false;
                             SpecFloat.S754_finite false 14210855 45]]};
     hooked := [] |}.

(** A small model and fine-tuner with rational parameters, to run the
    definitions: one convolutional layer with 64 filters and the parameter
    at address 0, a layer without parameters, and a head with the parameter
    at address 1. *)
Definition features_example : list (Module Z Q) :=
  [ {| conv2d := Some 64%nat; m_parameters := [0%nat]; m_call := λ _ t, t |};
    {| conv2d := None; m_parameters := []; m_call := λ _ t, t |} ].

Definition heap_example : gmap nat (Param Q) :=
  {[ 0%nat := {| p_data := 1%Q; p_grad := None; requires_grad := true;
                 p_dict := ∅ |};
     1%nat := {| p_data := 2%Q; p_grad := None; requires_grad := true;
                 p_dict := ∅ |} ]}.

Definition model_example : Model Z Q unit * gmap nat (Param Q) :=
  Model_init features_example [1%nat] (λ _ _, tt) heap_example.

Definition autograd_example (h : gmap nat (Param Q)) (m : Model Z Q unit)
    (batch : tensor Z) (label : nat) (a : nat) : Q := 1%Q.

Definition n_correct_example (h : gmap nat (Param Q)) (m : Model Z Q unit)
    (batch : tensor Z) (label : nat) : nat := 1%nat.

Definition label_size_example (label : nat) : nat := 1%nat.

Definition tuner_example : PrunningFineTuner Z Q nat unit :=
  PrunningFineTuner_init [(act_example 0 3, 0%nat)] [(act_example 0 3, 1%nat)]
                         model_example.1 model_example.2.

(** * Properties *)

(** ** The stable sort *)
Section PySortedFacts.
Context {A : Type} (le : A → A → bool).

Lemma insert_sorted_perm x l : insert_sorted le x l ≡ₚ x :: l.
Proof.
  induction l as [|y l IH]; simpl; [done|].
  destruct (le x y); [done|].
  rewrite IH. apply Permutation_swap.
Qed.

Lemma sorted_perm l : sorted le l ≡ₚ l.
Proof.
  induction l as [|x l IH]; simpl; [done|].
  by rewrite insert_sorted_perm, IH.
Qed.

Lemma sorted_length l : length (sorted le l) = length l.
Proof. by rewrite sorted_perm. Qed.

Hypothesis le_total : ∀ x y, le x y = true ∨ le y x = true.
Hypothesis le_trans : ∀ x y z, le x y = true → le y z = true → le x z = true.

Lemma insert_sorted_sorted x l :
  StronglySorted (λ a b, le a b = true) l →
  StronglySorted (λ a b, le a b = true) (insert_sorted le x l).
Proof using le_total le_trans.
  induction 1 as [|y l Hs IH Hy]; simpl.
  - repeat constructor.
  - destruct (le x y) eqn:Hxy.
    + constructor; [by constructor|].
      constructor; [done|].
      eapply Forall_impl; [exact Hy|]. intros z Hz. by eapply le_trans.
    + constructor; [done|].
      rewrite insert_sorted_perm. constructor; [|done].
      destruct (le_total x y) as [Hle|Hle]; [congruence|done].
Qed.

Lemma sorted_sorted l : StronglySorted (λ a b, le a b = true) (sorted le l).
Proof using le_total le_trans.
  induction l as [|x l IH]; simpl; [constructor|].
  by apply insert_sorted_sorted.
Qed.

(** Stability: among the elements tied with [a], the input order is kept. *)
Lemma insert_sorted_stable a x l :
  List.filter (tied le a) (insert_sorted le x l)
  = List.filter (tied le a) (x :: l).
Proof using le_trans.
  induction l as [|y l IH]; [done|].
  cbn [insert_sorted]. destruct (le x y) eqn:Hxy; [done|].
  cbn [List.filter] in *. rewrite IH.
  destruct (tied le a x) eqn:Hx, (tied le a y) eqn:Hy; try done.
  unfold tied in Hx, Hy.
  apply andb_prop in Hx as [_ Hxa]. apply andb_prop in Hy as [Hay _].
  rewrite (le_trans _ _ _ Hxa Hay) in Hxy. done.
Qed.

Lemma sorted_stable a l :
  List.filter (tied le a) (sorted le l) = List.filter (tied le a) l.
Proof using le_trans.
  induction l as [|x l IH]; [done|].
  cbn [sorted foldr]. rewrite insert_sorted_stable.
  cbn [List.filter]. fold (sorted le l). by rewrite IH.
Qed.
End PySortedFacts.

Lemma sorted_nat_strict (l : list nat) :
  NoDup l → StronglySorted lt (sorted Nat.leb l).
Proof.
  intros Hnd.
  assert (Hs : StronglySorted (λ a b, Nat.leb a b = true) (sorted Nat.leb l)).
  { apply sorted_sorted.
    - intros x y. rewrite !Nat.leb_le. lia.
    - intros x y z. rewrite !Nat.leb_le. lia. }
  assert (Hnd' : NoDup (sorted Nat.leb l)) by by rewrite sorted_perm.
  induction Hs as [|x l' Hs IH Hx]; [constructor|].
  apply NoDup_cons in Hnd' as [Hx' Hnd'].
  constructor; [by apply IH|].
  rewrite Forall_forall in Hx |- *. intros y Hy.
  specialize (Hx y Hy). apply Nat.leb_le in Hx.
  assert (x ≠ y) by (intros ->; done). lia.
Qed.

(** ** Removing the filters of a plan *)
Section SurgeonFacts.
Context {F : Type}.
Implicit Types (fs xs : list F) (net : gmap nat (list F)) (sel : list nat).

Lemma remove_where_ext P Q xs :
  (∀ i, (i < length xs)%nat → P i = Q i) →
  remove_where P xs = remove_where Q xs.
Proof.
  revert P Q. induction xs as [|x xs IH]; intros P Q HPQ; [done|].
  simpl. rewrite (HPQ 0%nat) by (simpl; lia).
  rewrite (IH (P ∘ S) (Q ∘ S)); [done|].
  intros i Hi. simpl. apply HPQ. simpl. lia.
Qed.

Lemma remove_where_none P xs :
  (∀ i, (i < length xs)%nat → P i = false) → remove_where P xs = xs.
Proof.
  revert P. induction xs as [|x xs IH]; intros P HP; [done|].
  simpl. rewrite (HP 0%nat) by (simpl; lia). f_equal.
  apply IH. intros i Hi. simpl. apply HP. simpl. lia.
Qed.

Lemma remove_simultaneously_where_gen (g : nat → nat) sel xs :
  (filter (λ ix : nat * F, ix.1 ∉ sel) (imap (λ i x, (g i, x)) xs)).*2
  = remove_where (λ i, bool_decide (g i ∈ sel)) xs.
Proof.
  revert g. induction xs as [|x xs IH]; intros g; [done|].
  cbn [imap remove_where]. rewrite filter_cons. cbn [fst].
  change ((λ i (x : F), (g i, x)) ∘ S) with (λ i (x : F), ((g ∘ S) i, x)).
  change ((λ i, bool_decide (g i ∈ sel)) ∘ S)
    with (λ i, bool_decide ((g ∘ S) i ∈ sel)).
  rewrite <- (IH (g ∘ S)).
  destruct (decide (g 0%nat ∉ sel)) as [Hn|Hn].
  - rewrite bool_decide_eq_false_2 by done. done.
  - rewrite bool_decide_eq_true_2; [done|].
    by destruct (decide (g 0%nat ∈ sel)).
Qed.

Lemma remove_simultaneously_where sel xs :
  remove_simultaneously sel xs = remove_where (λ i, bool_decide (i ∈ sel)) xs.
Proof. apply (remove_simultaneously_where_gen (λ i, i)). Qed.

Lemma remove_simultaneously_nil xs : remove_simultaneously [] xs = xs.
Proof.
  rewrite remove_simultaneously_where. apply remove_where_none.
  intros i _. apply bool_decide_eq_false_2. apply not_elem_of_nil.
Qed.

Lemma remove_simultaneously_perm sel sel' xs :
  sel ≡ₚ sel' → remove_simultaneously sel xs = remove_simultaneously sel' xs.
Proof.
  intros Hp. rewrite !remove_simultaneously_where.
  apply remove_where_ext. intros i _. apply bool_decide_ext. by rewrite Hp.
Qed.

(** Deleting a selected position [p] and then removing what [Q] selects is
    removing what [P] selects, when [Q] is [P] with the positions after [p]
    moved down by one. *)
Lemma remove_where_delete P Q (p : nat) xs :
  (p < length xs)%nat →
  P p = true →
  (∀ j, (j < p)%nat → Q j = P j) →
  (∀ j, (p ≤ j)%nat → Q j = P (S j)) →
  remove_where Q (delete p xs) = remove_where P xs.
Proof.
  revert P Q p. induction xs as [|x xs IH]; intros P Q p Hp HP Hlt Hge.
  { simpl in Hp. lia. }
  destruct p as [|p]; simpl.
  - rewrite HP. apply remove_where_ext. intros i _. simpl. apply Hge. lia.
  - rewrite (Hlt 0%nat) by lia.
    rewrite (IH (P ∘ S) (Q ∘ S) p).
    + done.
    + simpl in Hp. lia.
    + done.
    + intros j Hj. simpl. apply Hlt. lia.
    + intros j Hj. simpl. apply Hge. lia.
Qed.

(** Removing at the adjusted indices of a strictly ascending selection, one
    at a time, removes the selected positions.  [i] counts the removals
    already made, all of them below the selection. *)
Lemma remove_seq_adjusted (sel : list nat) :
  StronglySorted lt sel →
  ∀ (i : nat) xs,
    Forall (λ f, (i ≤ f < i + length xs)%nat) sel →
    remove_seq (imap (λ j f, Z.of_nat f - Z.of_nat (i + j)) sel) xs
    = Some (remove_where (λ p, bool_decide ((p + i)%nat ∈ sel)) xs).
Proof.
  induction 1 as [|f sel Hs IH Hf]; intros i xs Hr.
  - simpl. f_equal. symmetry. apply remove_where_none.
    intros p _. first [done | apply bool_decide_eq_false_2, not_elem_of_nil].
  - apply Forall_cons in Hr as [Hfr Hr].
    cbn [imap remove_seq]. rewrite Nat.add_0_r.
    rewrite decide_True by lia.
    replace (Z.to_nat (Z.of_nat f - Z.of_nat i)) with (f - i)%nat by lia.
    rewrite (imap_ext _ (λ j g, Z.of_nat g - Z.of_nat (S i + j)) sel).
    2:{ intros j g _. simpl. f_equal. f_equal. lia. }
    rewrite (IH (S i)).
    2:{ rewrite Forall_forall in Hf, Hr |- *. intros g Hg.
        specialize (Hf g Hg). specialize (Hr g Hg).
        rewrite length_delete by (apply lookup_lt_is_Some; lia). lia. }
    f_equal. rewrite Forall_forall in Hf.
    apply remove_where_delete.
    + lia.
    + apply bool_decide_eq_true_2. replace (f - i + i)%nat with f by lia.
      apply elem_of_cons; by left.
    + intros j Hj. apply bool_decide_ext. rewrite elem_of_cons. split.
      * intros Hin. specialize (Hf _ Hin). lia.
      * intros [Heq|Hin]; [lia|]. specialize (Hf _ Hin). lia.
    + intros j Hj. apply bool_decide_ext. rewrite elem_of_cons.
      replace (S j + i)%nat with (j + S i)%nat by lia. split.
      * by right.
      * intros [Heq|Hin]; [lia|done].
Qed.

Lemma remove_seq_adjust (sel : list nat) xs :
  NoDup sel →
  Forall (λ f, (f < length xs)%nat) sel →
  remove_seq (adjust sel) xs = Some (remove_simultaneously sel xs).
Proof.
  intros Hnd Hr. unfold adjust.
  rewrite (imap_ext _ (λ j f, Z.of_nat f - Z.of_nat (0 + j)) (sorted Nat.leb sel))
    by done.
  rewrite remove_seq_adjusted.
  - f_equal. rewrite (remove_simultaneously_perm sel (sorted Nat.leb sel))
      by by rewrite sorted_perm.
    rewrite remove_simultaneously_where. apply remove_where_ext.
    intros p _. by rewrite Nat.add_0_r.
  - by apply sorted_nat_strict.
  - rewrite sorted_perm. eapply Forall_impl; [exact Hr|]. simpl. lia.
Qed.

Lemma apply_plan_app (p1 p2 : list (nat * Z)) net :
  apply_plan (p1 ++ p2) net = apply_plan p1 net ≫= apply_plan p2.
Proof.
  revert net. induction p1 as [|[l i] p1 IH]; intros net; [done|].
  simpl. destruct (remove_filter net l i) as [net'|]; simpl; [apply IH|done].
Qed.

Lemma apply_plan_layer (l : nat) (adjusted : list Z) net xs ys :
  net !! l = Some xs →
  remove_seq adjusted xs = Some ys →
  apply_plan (pair l <$> adjusted) net = Some (<[l := ys]> net).
Proof.
  revert net xs. induction adjusted as [|i adj IH]; intros net xs Hl Hseq.
  - simpl in *. injection Hseq as <-. by rewrite insert_id.
  - cbn [remove_seq] in Hseq. rewrite fmap_cons. cbn [apply_plan].
    unfold remove_filter. rewrite Hl. cbn [mbind option_bind].
    destruct (decide (0 ≤ i < Z.of_nat (length xs))); [|done].
    cbn [mbind option_bind].
    rewrite (IH _ (delete (Z.to_nat i) xs)); [|by rewrite lookup_insert_eq|done].
    by rewrite insert_insert_eq.
Qed.
End SurgeonFacts.

(** ** Grouping the selected filters by layer *)
Section Grouping.
Context {T : Type} `{Scalar T}.
Implicit Types (d : list (nat * list nat)) (ts : list (triple T)).

Lemma dict_get_append k l f d :
  dict_get k (dict_append l f d)
  = if decide (k = l) then dict_get l d ++ [f] else dict_get k d.
Proof.
  induction d as [|[l' fs] d IH]; simpl.
  - destruct (decide (k = l)) as [->|Hne].
    + by rewrite Nat.eqb_refl.
    + by rewrite (proj2 (Nat.eqb_neq k l)).
  - destruct (Nat.eqb_spec l l') as [->|Hll']; simpl.
    + destruct (decide (k = l')) as [->|Hne].
      * by rewrite Nat.eqb_refl.
      * by rewrite (proj2 (Nat.eqb_neq k l')).
    + destruct (Nat.eqb_spec k l') as [->|Hkl'].
      * by rewrite decide_False by done.
      * exact IH.
Qed.

Lemma dict_append_keys l f d :
  (dict_append l f d).*1 = if decide (l ∈ d.*1) then d.*1 else d.*1 ++ [l].
Proof.
  induction d as [|[l' fs] d IH].
  - case_decide as Hin; [by apply elem_of_nil in Hin|done].
  - cbn [dict_append]. rewrite fmap_cons. cbn [fst].
    destruct (Nat.eqb_spec l l') as [->|Hll'].
    + rewrite decide_True; [done|]. apply elem_of_cons. by left.
    + rewrite fmap_cons, IH. cbn [fst]. destruct (decide (l ∈ d.*1)) as [Hin|Hin].
      * rewrite decide_True; [done|]. apply elem_of_cons. by right.
      * rewrite decide_False; [done|]. rewrite elem_of_cons. intros [?|?]; done.
Qed.

Lemma dict_append_NoDup l f d : NoDup d.*1 → NoDup (dict_append l f d).*1.
Proof.
  intros Hnd. rewrite dict_append_keys. destruct (decide (l ∈ d.*1)); [done|].
  apply NoDup_app. split_and!; [done| |apply NoDup_singleton].
  intros x Hx Hx'. apply list_elem_of_singleton in Hx' as ->. done.
Qed.

Lemma selected_in_snoc l ts (t : triple T) :
  selected_in l (ts ++ [t])
  = selected_in l ts ++ (if decide (t.1.1 = l) then [t.1.2] else []).
Proof.
  unfold selected_in. rewrite filter_app, fmap_app. f_equal.
  rewrite filter_cons, filter_nil. by destruct (decide (t.1.1 = l)).
Qed.

Lemma elem_of_selected_in l f ts :
  f ∈ selected_in l ts ↔ ∃ sc, (l, f, sc) ∈ ts.
Proof.
  unfold selected_in. rewrite list_elem_of_fmap. split.
  - intros ([[l' f'] sc] & -> & Hin). apply list_elem_of_filter in Hin as [Hl Hin].
    simpl in *. subst l'. by exists sc.
  - intros [sc Hin]. exists (l, f, sc). split; [done|].
    apply list_elem_of_filter. done.
Qed.

Lemma selected_in_NoDup l ts : NoDup (ts.*1) → NoDup (selected_in l ts).
Proof.
  induction ts as [|[[l' f] sc] ts IH]; intros Hnd.
  - constructor.
  - rewrite fmap_cons in Hnd. apply NoDup_cons in Hnd as [Hni Hnd].
    unfold selected_in. rewrite filter_cons. simpl.
    destruct (decide (l' = l)) as [->|Hne]; [|by apply IH].
    rewrite fmap_cons. apply NoDup_cons. split; [|by apply IH].
    simpl. intros Hin. apply Hni.
    apply (elem_of_selected_in l f ts) in Hin as [sc' Hin].
    apply list_elem_of_fmap. by exists (l, f, sc').
Qed.

Lemma group_by_layer_get_gen l ts d :
  dict_get l (foldl (λ d (t : triple T), dict_append t.1.1 t.1.2 d) d ts)
  = dict_get l d ++ selected_in l ts.
Proof.
  revert d. induction ts as [|t ts IH] using rev_ind; intros d.
  - simpl. unfold selected_in. by rewrite filter_nil, app_nil_r.
  - rewrite foldl_snoc, dict_get_append, selected_in_snoc.
    destruct (decide (l = t.1.1)) as [->|Hne].
    + rewrite decide_True by done. by rewrite IH, app_assoc.
    + rewrite decide_False by done. by rewrite IH, app_nil_r.
Qed.

Lemma group_by_layer_get l ts :
  dict_get l (group_by_layer ts) = selected_in l ts.
Proof. apply (group_by_layer_get_gen l ts []). Qed.

Lemma group_by_layer_NoDup ts : NoDup (group_by_layer ts).*1.
Proof.
  unfold group_by_layer.
  induction ts as [|t ts IH] using rev_ind; [constructor|].
  rewrite foldl_snoc. by apply dict_append_NoDup.
Qed.

Lemma group_by_layer_keys l ts :
  l ∈ (group_by_layer ts).*1 → ∃ f sc, (l, f, sc) ∈ ts.
Proof.
  unfold group_by_layer.
  induction ts as [|[[l' f'] sc'] ts IH] using rev_ind.
  - intros Hin. by apply elem_of_nil in Hin.
  - rewrite foldl_snoc, dict_append_keys. cbn [fst snd].
    intros Hin.
    assert (l ∈ (foldl (λ d (t : triple T), dict_append t.1.1 t.1.2 d) [] ts).*1
            ∨ l = l') as [Hold| ->].
    { case_decide; [by left|].
      apply elem_of_app in Hin as [?|Hin]; [by left|].
      apply list_elem_of_singleton in Hin. by right. }
    + destruct (IH Hold) as (f & sc & Ht). exists f, sc.
      apply elem_of_app. by left.
    + exists f', sc'. apply elem_of_app. right. by apply list_elem_of_singleton.
Qed.

Lemma dict_get_elem_of l fs d : NoDup d.*1 → (l, fs) ∈ d → dict_get l d = fs.
Proof.
  induction d as [|[l' fs'] d IH]; intros Hnd Hin.
  - by apply elem_of_nil in Hin.
  - rewrite fmap_cons in Hnd. apply NoDup_cons in Hnd as [Hni Hnd]. simpl.
    apply elem_of_cons in Hin as [Heq|Hin].
    + injection Heq as <- <-. by rewrite Nat.eqb_refl.
    + destruct (Nat.eqb_spec l l') as [->|Hne]; [|by apply IH].
      exfalso. apply Hni. apply list_elem_of_fmap. by exists (l', fs).
Qed.

Lemma dict_get_not_key l d : l ∉ d.*1 → dict_get l d = [].
Proof.
  induction d as [|[l' fs'] d IH]; intros Hni; [done|]. simpl.
  rewrite fmap_cons, not_elem_of_cons in Hni. destruct Hni as [Hne Hni].
  rewrite (proj2 (Nat.eqb_neq l l')) by done. by apply IH.
Qed.
End Grouping.

(** ** The pruning plan *)
Section Plan.
Context {T : Type} `{Scalar T} {F : Type}.
Implicit Types (d : list (nat * list nat)) (net : gmap nat (list F)).

Lemma apply_plan_groups d :
  NoDup d.*1 →
  ∀ net,
    (∀ l fs, (l, fs) ∈ d →
       NoDup fs ∧
       ∃ xs, net !! l = Some xs ∧ Forall (λ f, (f < length xs)%nat) fs) →
    ∃ net',
      apply_plan (e ← ((λ e, (e.1, adjust e.2)) <$> d); pair e.1 <$> e.2) net
      = Some net'
      ∧ ∀ l, net' !! l = remove_simultaneously (dict_get l d) <$> net !! l.
Proof.
  induction d as [|[l0 fs0] d IH]; intros Hnd net Hd.
  - exists net. split; [done|]. intros l. simpl.
    destruct (net !! l) as [xs|]; simpl; [|done].
    by rewrite remove_simultaneously_nil.
  - rewrite fmap_cons in Hnd. apply NoDup_cons in Hnd as [Hni Hnd].
    cbn [fst] in Hni.
    destruct (Hd l0 fs0) as (Hfs0 & xs & Hxs & Hr);
      [apply elem_of_cons; by left|].
    rewrite fmap_cons, bind_cons, apply_plan_app. cbn [fst snd].
    rewrite (apply_plan_layer l0 (adjust fs0) net xs
               (remove_simultaneously fs0 xs) Hxs)
      by by apply remove_seq_adjust.
    cbn [mbind option_bind].
    destruct (IH Hnd (<[l0 := remove_simultaneously fs0 xs]> net))
      as (net' & Hplan & Hnet').
    { intros l fs Hin. destruct (Hd l fs) as (Hfs & ys & Hys & Hry);
        [apply elem_of_cons; by right|].
      split; [done|]. exists ys. split; [|done].
      rewrite lookup_insert_ne; [done|]. intros ->. apply Hni.
      apply list_elem_of_fmap. by exists (l, fs). }
    exists net'. split; [done|]. intros l. rewrite Hnet'. cbn [dict_get].
    destruct (Nat.eqb_spec l l0) as [->|Hne].
    + rewrite lookup_insert_eq, Hxs, dict_get_not_key by done. simpl.
      by rewrite remove_simultaneously_nil.
    + by rewrite lookup_insert_ne by done.
Qed.

Lemma apply_plan_of (ts : list (triple T)) net :
  NoDup (ts.*1) →
  (∀ l f sc, (l, f, sc) ∈ ts →
     ∃ xs, net !! l = Some xs ∧ (f < length xs)%nat) →
  ∃ net',
    apply_plan (plan_of ts) net = Some net'
    ∧ ∀ l, net' !! l = remove_simultaneously (selected_in l ts) <$> net !! l.
Proof.
  intros Hnd Hr. unfold plan_of.
  destruct (apply_plan_groups (group_by_layer ts) (group_by_layer_NoDup ts) net)
    as (net' & Hplan & Hnet').
  - intros l fs Hin.
    apply (dict_get_elem_of l fs _ (group_by_layer_NoDup ts)) in Hin as Hget.
    rewrite group_by_layer_get in Hget. subst fs.
    split; [by apply selected_in_NoDup|].
    destruct (group_by_layer_keys l ts) as (f0 & sc0 & Ht0).
    { apply list_elem_of_fmap. by exists (l, selected_in l ts). }
    destruct (Hr _ _ _ Ht0) as (xs & Hxs & _). exists xs. split; [done|].
    apply Forall_forall. intros f Hf.
    apply elem_of_selected_in in Hf as [sc Ht].
    destruct (Hr _ _ _ Ht) as (xs' & Hxs' & Hlt). congruence.
  - exists net'. split; [done|]. intros l.
    by rewrite Hnet', group_by_layer_get.
Qed.
End Plan.

(** ** The lowest-ranking filters *)
Section Lowest.
Context {T : Type} `{Scalar T}.
Implicit Types (a2l : gmap Z nat) (ranks : gmap Z (list T)) (v : list T).

Lemma rows_covered a2l i l v :
  a2l !! i = Some l →
  ∀ j, rows a2l i j v = Ok (imap (λ k score, (l, (j + k)%nat, score)) v).
Proof.
  intros Hl. induction v as [|score v IH]; intros j; [done|].
  cbn [rows imap]. rewrite Hl, IH. cbn. rewrite Nat.add_0_r. do 2 f_equal.
  apply imap_ext. intros k sc _. simpl. do 2 f_equal. lia.
Qed.

Lemma collect_covered a2l (items : list (Z * list T)) :
  (∀ i v, (i, v) ∈ items → v ≠ [] → is_Some (a2l !! i)) →
  collect a2l items
  = Ok (iv ← items;
        imap (λ j score, (default 0%nat (a2l !! iv.1), j, score)) iv.2).
Proof.
  induction items as [|[i v] items IH]; intros Hc; [done|].
  cbn [collect]. rewrite bind_cons. cbn [fst snd].
  rewrite IH by (intros i' v' Hin; apply Hc; apply elem_of_cons; by right).
  destruct v as [|score v]; [done|].
  destruct (Hc i (score :: v)) as [l Hl]; [apply elem_of_cons; by left|done|].
  rewrite (rows_covered a2l i l _ Hl). rewrite Hl. done.
Qed.

Lemma sorted_items_keys ranks :
  StronglySorted Z.lt (sorted_items ranks).*1.
Proof.
  unfold sorted_items.
  set (le := λ a b : Z * list T, Z.leb a.1 b.1).
  assert (Hs : StronglySorted (λ a b, le a b = true)
                 (sorted le (map_to_list ranks))).
  { apply sorted_sorted.
    - intros x y. unfold le. rewrite !Z.leb_le. lia.
    - intros x y z. unfold le. rewrite !Z.leb_le. lia. }
  assert (Hnd : NoDup (sorted le (map_to_list ranks)).*1).
  { rewrite sorted_perm. apply NoDup_fst_map_to_list. }
  induction Hs as [|x l Hs IH Hx]; [constructor|].
  rewrite fmap_cons in Hnd |- *. apply NoDup_cons in Hnd as [Hni Hnd].
  constructor; [by apply IH|].
  apply Forall_fmap, Forall_forall. intros y Hy. simpl.
  rewrite Forall_forall in Hx. specialize (Hx y Hy). unfold le in Hx.
  apply Z.leb_le in Hx.
  assert (x.1 ≠ y.1).
  { intros Heq. apply Hni. rewrite Heq. apply list_elem_of_fmap. by exists y. }
  lia.
Qed.

Lemma enumeration_length a2l ranks :
  length (enumeration a2l ranks) = total_filters ranks.
Proof.
  unfold enumeration, total_filters.
  set (le := λ a b : Z * list T, Z.leb a.1 b.1).
  rewrite <- (sum_list_with_Permutation_proper _ _ _
                (sorted_perm le (map_to_list ranks))).
  induction (sorted le (map_to_list ranks)) as [|[i v] l IH]; [done|].
  rewrite bind_cons, length_app, length_imap. cbn [sum_list_with snd].
  f_equal. exact IH.
Qed.

Lemma filter_take_prefix {A : Type} (P : A → bool) (n : nat) (l : list A) :
  List.filter P (take n l) `prefix_of` List.filter P l.
Proof.
  exists (List.filter P (drop n l)).
  by rewrite <- List.filter_app, take_drop.
Qed.
End Lowest.

(** C1: for every layer and every selection of distinct filter indices in
    it, removing the pairs of the plan of [get_prunning_plan] one at a time,
    in plan order, each from the layer as the removals before it left it,
    succeeds and leaves in every layer exactly the filters that removing
    the selected, unadjusted indices all at once from the original layer
    leaves. *)
Theorem get_prunning_plan_sequential_removal {T : Type} `{Scalar T} {F : Type}
    (s : FilterPrunner T) (num : nat) (triples : list (triple T))
    (net : gmap nat (list F)) :
  lowest_ranking_filters s num = Ok triples →
  NoDup (triples.*1) →
  (∀ l f sc, (l, f, sc) ∈ triples →
     ∃ xs, net !! l = Some xs ∧ (f < length xs)%nat) →
  ∃ plan net',
    get_prunning_plan s num = Ok plan
    ∧ apply_plan plan net = Some net'
    ∧ ∀ l, net' !! l
           = remove_simultaneously (selected_in l triples) <$> net !! l.
Proof.
  intros Hlow Hnd Hr.
  destruct (apply_plan_of triples net Hnd Hr) as (net' & Hplan & Hnet').
  exists (plan_of triples), net'. split; [|done].
  unfold get_prunning_plan. by rewrite Hlow.
Qed.

Lemma get_prunning_plan_sequential_removal_witness :
  ∃ plan net',
    get_prunning_plan ranker_example 3 = Ok plan
    ∧ apply_plan plan net_example = Some net'
    ∧ ∀ l, net' !! l
           = remove_simultaneously
               (selected_in l [(0%nat, 2%nat, 0); (0%nat, 1%nat, 1);
                               (2%nat, 1%nat, 1)])
             <$> net_example !! l.
Proof.
  apply (get_prunning_plan_sequential_removal ranker_example 3).
  - vm_compute. reflexivity.
  - apply (bool_decide_unpack _). by vm_compute.
  - intros l f sc Hin.
    repeat (apply elem_of_cons in Hin as [Heq|Hin];
            [injection Heq as -> -> ->; eexists; split;
             [vm_compute; reflexivity|simpl; lia]|]).
    by apply elem_of_nil in Hin.
Defined.

(** The example of the specification: in a layer with filters 0 to 4, the
    selection of the indices 1 and 3 gives the plan of index 1, then 2, and
    the two removals take out the filters that were at 1 and 3. *)
Lemma plan_of_example :
  plan_of [(7%nat, 3%nat, 0); (7%nat, 1%nat, 0)] = [(7%nat, 1); (7%nat, 2)]
  ∧ apply_plan [(7%nat, 1); (7%nat, 2)] {[7%nat := [0; 1; 2; 3; 4]]}
    = Some {[7%nat := [0; 2; 4]]}.
Proof. by vm_compute. Qed.

(** C2: [lowest_ranking_filters(num)] returns [num] triples, or all of them
    if the table holds fewer; they are sorted ascending by score, they are
    the smallest of the table, ties are broken by the enumeration order
    (ascending activation index, then filter index), and the result depends
    on the rank table and the layer mapping only. *)
Theorem lowest_ranking_filters_correct {T : Type} `{Scalar T}
    (s : FilterPrunner T) (num : nat) :
  (∀ x y : T, sle x y = true ∨ sle y x = true) →
  (∀ x y z : T, sle x y = true → sle y z = true → sle x z = true) →
  (∀ i v, filter_ranks s !! i = Some v → v ≠ [] →
          is_Some (activation_to_layer s !! i)) →
  ∃ items data result rest,
    items ≡ₚ map_to_list (filter_ranks s)
    ∧ StronglySorted Z.lt items.*1
    ∧ data = (iv ← items;
              imap (λ j score,
                      (default 0%nat (activation_to_layer s !! iv.1), j, score))
                   iv.2)
    ∧ lowest_ranking_filters s num = Ok result
    ∧ length result = min num (total_filters (filter_ranks s))
    ∧ StronglySorted (λ a b : triple T, sle a.2 b.2 = true) result
    ∧ result ++ rest ≡ₚ data
    ∧ (∀ a b : triple T, a ∈ result → b ∈ rest → sle a.2 b.2 = true)
    ∧ (∀ a, List.filter (tied by_score a) result
            `prefix_of` List.filter (tied by_score a) data)
    ∧ (∀ s', filter_ranks s' = filter_ranks s →
             activation_to_layer s' = activation_to_layer s →
             lowest_ranking_filters s' num = Ok result).
Proof.
  intros Htotal Htrans Hcov.
  set (data := enumeration (activation_to_layer s) (filter_ranks s)).
  assert (Hcollect : collect (activation_to_layer s)
                       (sorted_items (filter_ranks s)) = Ok data).
  { apply collect_covered. intros i v Hin. apply Hcov.
    unfold sorted_items in Hin. rewrite sorted_perm in Hin.
    by apply elem_of_map_to_list in Hin. }
  assert (Hsorted : StronglySorted (λ a b : triple T, by_score a b = true)
                      (sorted by_score data)).
  { apply sorted_sorted; unfold by_score; [intros x y|intros x y z]; auto.
    apply Htrans. }
  exists (sorted_items (filter_ranks s)), data,
    (take num (sorted by_score data)), (drop num (sorted by_score data)).
  assert (Hlow : lowest_ranking_filters s num
                 = Ok (take num (sorted by_score data))).
  { unfold lowest_ranking_filters. by rewrite Hcollect. }
  split_and!.
  - apply sorted_perm.
  - apply sorted_items_keys.
  - done.
  - done.
  - rewrite length_take, sorted_length. unfold data.
    by rewrite enumeration_length.
  - rewrite <- (take_drop num (sorted by_score data)) in Hsorted.
    by apply StronglySorted_app_1_l in Hsorted.
  - by rewrite take_drop, sorted_perm.
  - intros a b Ha Hb.
    rewrite <- (take_drop num (sorted by_score data)) in Hsorted.
    apply (StronglySorted_app_1_elem_of _ _ _ a b Hsorted Ha Hb).
  - intros a. etrans; [apply filter_take_prefix|].
    rewrite sorted_stable; [done|].
    unfold by_score. intros x y z. apply Htrans.
  - intros s' Hranks Ha2l. unfold lowest_ranking_filters.
    rewrite Hranks, Ha2l. by rewrite Hcollect.
Qed.

Lemma lowest_ranking_filters_correct_witness :
  ∃ items data result rest,
    items ≡ₚ map_to_list (filter_ranks ranker_example)
    ∧ StronglySorted Z.lt items.*1
    ∧ data = (iv ← items;
              imap (λ j score,
                      (default 0%nat
                         (activation_to_layer ranker_example !! iv.1),
                       j, score))
                   iv.2)
    ∧ lowest_ranking_filters ranker_example 4 = Ok result
    ∧ length result = min 4 (total_filters (filter_ranks ranker_example))
    ∧ StronglySorted (λ a b : triple Z, sle a.2 b.2 = true) result
    ∧ result ++ rest ≡ₚ data
    ∧ (∀ a b : triple Z, a ∈ result → b ∈ rest → sle a.2 b.2 = true)
    ∧ (∀ a, List.filter (tied by_score a) result
            `prefix_of` List.filter (tied by_score a) data)
    ∧ (∀ s', filter_ranks s' = filter_ranks ranker_example →
             activation_to_layer s' = activation_to_layer ranker_example →
             lowest_ranking_filters s' 4 = Ok result).
Proof.
  apply (lowest_ranking_filters_correct ranker_example 4).
  - intros x y. simpl. rewrite !Z.leb_le. lia.
  - intros x y z. simpl. rewrite !Z.leb_le. lia.
  - intros i v Hi _. apply elem_of_map_to_list in Hi. vm_compute in Hi.
    repeat (apply elem_of_cons in Hi as [Heq|Hi];
            [injection Heq as -> _; by eexists|]).
    by apply elem_of_nil in Hi.
Defined.

(** ** Normalization under rounding *)

Lemma zip_with_diag {A B : Type} (f : A → A → B) (l : list A) :
  zip_with f l l = (λ x, f x x) <$> l.
Proof. induction l as [|x l IH]; [done|]. simpl. by rewrite IH. Qed.

(** The rounding [fl] has relative error at most [u] on the magnitudes
    between [lo] and [hi], and keeps zero.  For binary32, [u] is [2^-24],
    [lo] is the smallest normal number [2^-126] and [hi] the largest finite
    number. *)
Section Rounded.
Open Scope R_scope.
Context (fl : R → R) (u lo hi : R).
Hypothesis Hu : 0 <= u < 1.
Hypothesis Hlo : 0 < lo <= 1.
Hypothesis Hhi : 1 <= hi.
Hypothesis fl_zero : fl 0 = 0.
Hypothesis fl_accurate :
  ∀ x, lo <= Rabs x <= hi → Rabs (fl x - x) <= u * Rabs x.
Implicit Types (v l : list R).

Lemma fl_bounds x :
  x = 0 ∨ lo <= x <= hi → (1 - u) * x <= fl x <= (1 + u) * x.
Proof using Hu Hlo fl_zero fl_accurate.
  intros [->|Hx]; [rewrite fl_zero; lra|].
  assert (Hpos : 0 <= x) by lra.
  pose proof (fl_accurate x) as Ha. rewrite (Rabs_pos_eq x) in Ha by done.
  specialize (Ha Hx). unfold Rabs in Ha at 1. destruct (Rcase_abs _); lra.
Qed.

Lemma pow_1mu_pos n : 0 < (1 - u) ^ n.
Proof using Hu. apply pow_lt. lra. Qed.

Lemma pow_1pu_ge1 n : 1 <= (1 + u) ^ n.
Proof using Hu. apply pow_R1_Rle. lra. Qed.

Lemma pow_1mu_le1 n : (1 - u) ^ n <= 1.
Proof using Hu.
  induction n as [|n IH]; simpl; [lra|]. pose proof (pow_1mu_pos n). nra.
Qed.

Lemma pow_1mu_anti m n : (m ≤ n)%nat → (1 - u) ^ n <= (1 - u) ^ m.
Proof using Hu.
  intros Hmn. replace n with (m + (n - m))%nat by lia. rewrite pow_add.
  pose proof (pow_1mu_pos m). pose proof (pow_1mu_le1 (n - m)).
  pose proof (pow_1mu_pos (n - m)). nra.
Qed.

Lemma pow_1pu_mono m n : (m ≤ n)%nat → (1 + u) ^ m <= (1 + u) ^ n.
Proof using Hu. intros Hmn. apply Rle_pow; [lra|done]. Qed.

Lemma l2_norm_sq_nonneg v : 0 <= l2_norm_sq v.
Proof. induction v as [|x v IH]; simpl; [lra|nra]. Qed.

Lemma l2_norm_sq_app v w : l2_norm_sq (v ++ w) = l2_norm_sq v + l2_norm_sq w.
Proof. induction v as [|x v IH]; simpl; [lra|]. rewrite IH. lra. Qed.

Lemma l2_norm_sq_elem v x : x ∈ v → x * x <= l2_norm_sq v.
Proof.
  induction v as [|y v IH]; intros Hin; [by apply elem_of_nil in Hin|].
  simpl. pose proof (l2_norm_sq_nonneg v).
  apply elem_of_cons in Hin as [->|Hin]; [nra|]. specialize (IH Hin). nra.
Qed.

Lemma l2_norm_sq_pos v : (∃ x, x ∈ v ∧ x ≠ 0) → 0 < l2_norm_sq v.
Proof.
  intros (x & Hin & Hx). pose proof (l2_norm_sq_elem v x Hin). nra.
Qed.

(** A vector whose nonzero entries have squares of at least [lo / c] has a
    squared norm that is zero or at least [lo / c]. *)
Lemma l2_norm_sq_range v c :
  0 <= c →
  (∀ x, x ∈ v → x ≠ 0 → lo <= x * x * c) →
  l2_norm_sq v = 0 ∨ lo <= l2_norm_sq v * c.
Proof.
  intros Hc. induction v as [|x v IH]; intros Hv; [by left|].
  simpl. pose proof (l2_norm_sq_nonneg v).
  destruct (Req_dec x 0) as [->|Hx].
  - destruct IH as [->|IH].
    { intros y Hy. apply Hv. apply elem_of_cons. by right. }
    + left. lra.
    + right. nra.
  - right. assert (lo <= x * x * c).
    { apply Hv; [apply elem_of_cons; by left|done]. }
    nra.
Qed.

Lemma l2_norm_sq_snoc v x : l2_norm_sq (v ++ [x]) = l2_norm_sq v + x * x.
Proof. rewrite l2_norm_sq_app. simpl. lra. Qed.

(** The computed sum of the computed squares of a prefix of at most [n0]
    entries. *)
Lemma ssum_rounded_bounds (n0 : nat) l :
  (length l ≤ n0)%nat →
  (∀ x, x ∈ l → x ≠ 0 → lo <= x * x * (1 - u) ^ S n0) →
  l2_norm_sq l * (1 + u) ^ S n0 <= hi →
  (1 - u) ^ S (length l) * l2_norm_sq l
  <= foldl (λ a b, fl (a + b)) 0 ((λ x, fl (Rabs x * Rabs x)) <$> l)
  <= (1 + u) ^ S (length l) * l2_norm_sq l.
Proof using Hu Hlo Hhi fl_zero fl_accurate.
  induction l as [|x l IH] using rev_ind; intros Hlen Hlow Hup.
  - simpl. lra.
  - rewrite length_app in Hlen. simpl in Hlen.
    rewrite l2_norm_sq_snoc in Hup.
    pose proof (l2_norm_sq_nonneg l) as Hl0.
    pose proof (pow_1pu_ge1 (S n0)) as HP0.
    pose proof (pow_1mu_pos (S n0)) as HM0.
    pose proof (pow_1mu_le1 (S n0)) as HM0'.
    assert (Hxx : 0 <= x * x) by nra.
    destruct IH as [IHl IHu].
    { lia. }
    { intros y Hy. apply Hlow. apply elem_of_app. by left. }
    { nra. }
    rewrite fmap_app, foldl_app. simpl.
    set (s := foldl (λ a b, fl (a + b)) 0
                ((λ x, fl (Rabs x * Rabs x)) <$> l)) in *.
    replace (Rabs x * Rabs x) with (x * x)
      by (rewrite <- Rabs_mult; by rewrite Rabs_pos_eq).
    set (k := length l) in *.
    rewrite length_app. simpl. replace (k + 1)%nat with (S k) by lia.
    rewrite l2_norm_sq_snoc.
    pose proof (pow_1mu_pos (S k)) as HMk.
    pose proof (pow_1mu_le1 (S k)) as HMk'.
    pose proof (pow_1pu_ge1 (S k)) as HPk.
    pose proof (pow_1mu_anti (S k) (S n0) ltac:(lia)) as HMkn.
    pose proof (pow_1pu_mono (S k) (S n0) ltac:(lia)) as HPkn.
    pose proof (pow_1mu_anti 1 (S k) ltac:(lia)) as HM1k.
    pose proof (pow_1pu_mono 1 (S k) ltac:(lia)) as HP1k.
    rewrite pow_1 in HM1k, HP1k.
    assert (Hq : (1 - u) * (x * x) <= fl (x * x) <= (1 + u) * (x * x)).
    { apply fl_bounds. destruct (Req_dec x 0) as [->|Hx]; [left; lra|right].
      assert (lo <= x * x * (1 - u) ^ S n0).
      { apply Hlow; [|done]. apply elem_of_app. right.
        apply elem_of_cons. by left. }
      split; nra. }
    set (q := fl (x * x)) in *.
    assert (Ht : (1 - u) ^ S k * (l2_norm_sq l + x * x) <= s + q
                 <= (1 + u) ^ S k * (l2_norm_sq l + x * x)) by (split; nra).
    assert (Hfl : (1 - u) * (s + q) <= fl (s + q) <= (1 + u) * (s + q)).
    { apply fl_bounds.
      destruct (l2_norm_sq_range (l ++ [x]) ((1 - u) ^ S n0)) as [Hz|Hnz].
      - lra.
      - exact Hlow.
      - left. rewrite l2_norm_sq_snoc in Hz. nra.
      - right. rewrite l2_norm_sq_snoc in Hnz. split; nra. }
    replace (length l + 1)%nat with (S k) by (unfold k; lia). split; nra.
Qed.

(** Elementwise bounds on squares add up. *)
Lemma l2_norm_sq_scaled (g : R → R) (c1 c2 : R) v :
  (∀ x, x ∈ v → c1 * (x * x) <= g x * g x <= c2 * (x * x)) →
  c1 * l2_norm_sq v <= l2_norm_sq (g <$> v) <= c2 * l2_norm_sq v.
Proof.
  induction v as [|x v IH]; intros Hv; [simpl; lra|].
  destruct IH as [IH1 IH2].
  { intros y Hy. apply Hv. apply elem_of_cons. by right. }
  destruct (Hv x) as [H1 H2]; [apply elem_of_cons; by left|].
  rewrite fmap_cons.
  change (l2_norm_sq (g x :: (g <$> v)))
    with (g x * g x + l2_norm_sq (g <$> v)).
  change (l2_norm_sq (x :: v)) with (x * x + l2_norm_sq v).
  split; lra.
Qed.

Lemma sqrt_in_range x : lo <= x <= hi → lo <= sqrt x <= hi.
Proof using Hlo Hhi.
  clear Hu fl_zero fl_accurate.
  intros Hx. assert (H0 : 0 <= x) by lra.
  pose proof (sqrt_pos x) as Hr. pose proof (sqrt_sqrt x H0) as Hrr.
  split; nra.
Qed.

(** The normalization of one score vector under rounding. *)
Lemma normalize_vec_rounded v :
  let n := length v in
  (∃ x, x ∈ v ∧ x ≠ 0) →
  (∀ x, x ∈ v → x ≠ 0 → lo <= x * x * (1 - u) ^ S n) →
  l2_norm_sq v * (1 + u) ^ S n <= hi →
  (∀ x, x ∈ v → x ≠ 0 →
        lo * lo * (l2_norm_sq v * (1 + u) ^ (n + 3)) <= x * x) →
  1 <= hi * (1 - u) ^ (n + 3) →
  ∃ norm,
    @normalize_vec R (Rounded_Scalar fl) v = (λ x, fl (Rabs x / norm)) <$> v
    ∧ 0 < norm
    ∧ (1 - u) ^ (n + 3) * l2_norm_sq v <= norm * norm
      <= (1 + u) ^ (n + 3) * l2_norm_sq v
    ∧ (∀ x, x ∈ v →
            (1 - u) * (Rabs x / norm) <= fl (Rabs x / norm)
            <= (1 + u) * (Rabs x / norm)).
Proof using Hu Hlo Hhi fl_zero fl_accurate.
  intros n Hnz Hlow Hup Hquot Hone.
  pose proof (l2_norm_sq_pos v Hnz) as HS.
  pose proof (ssum_rounded_bounds n v ltac:(done) Hlow Hup) as Hs.
  fold n in Hs.
  set (s := foldl (λ a b, fl (a + b)) 0
              ((λ x, fl (Rabs x * Rabs x)) <$> v)) in *.
  set (S2 := l2_norm_sq v) in *.
  pose proof (pow_1mu_pos (S n)) as HMn. pose proof (pow_1mu_le1 (S n)) as HMn'.
  pose proof (pow_1pu_ge1 (S n)) as HPn.
  pose proof (pow_1mu_pos (n + 3)) as HM3.
  pose proof (pow_1mu_le1 (n + 3)) as HM3'.
  pose proof (pow_1pu_ge1 (n + 3)) as HP3.
  assert (HM3eq : (1 - u) ^ (n + 3) = (1 - u) * (1 - u) * (1 - u) ^ S n).
  { replace (n + 3)%nat with (S (S (S n))) by lia. simpl. ring. }
  assert (HP3eq : (1 + u) ^ (n + 3) = (1 + u) * (1 + u) * (1 + u) ^ S n).
  { replace (n + 3)%nat with (S (S (S n))) by lia. simpl. ring. }
  assert (Hsrange : lo <= s <= hi).
  { destruct (l2_norm_sq_range v ((1 - u) ^ S n)) as [Hz|Hr].
    - lra.
    - exact Hlow.
    - fold S2 in Hz. lra.
    - fold S2 in Hr. split; nra. }
  pose proof (sqrt_in_range s Hsrange) as Hrrange.
  assert (Hs0 : 0 <= s) by lra.
  pose proof (sqrt_sqrt s Hs0) as Hrr.
  set (r := sqrt s) in *.
  pose proof (fl_bounds r (or_intror Hrrange)) as HN.
  set (norm := fl r) in *.
  assert (Hnorm : 0 < norm) by nra.
  assert (Hnn : (1 - u) ^ (n + 3) * S2 <= norm * norm
                <= (1 + u) ^ (n + 3) * S2).
  { rewrite HM3eq, HP3eq.
    assert (0 <= 1 - u) by lra. assert (0 <= r) by lra.
    assert (0 <= (1 - u) * r) by nra.
    assert ((1 - u) * r * ((1 - u) * r) <= norm * norm)
      by (apply Rmult_le_compat; lra).
    assert (norm * norm <= (1 + u) * r * ((1 + u) * r))
      by (apply Rmult_le_compat; lra).
    assert ((1 - u) * r * ((1 - u) * r) = (1 - u) * (1 - u) * s)
      by (rewrite <- Hrr; ring).
    assert ((1 + u) * r * ((1 + u) * r) = (1 + u) * (1 + u) * s)
      by (rewrite <- Hrr; ring).
    assert (0 <= (1 - u) * (1 - u)) by nra.
    assert (0 <= (1 + u) * (1 + u)) by nra.
    split; nra. }
  exists norm. split; [|split; [exact Hnorm|split; [exact Hnn|]]].
  - unfold normalize_vec. cbn [sabs smul sdiv ssqrt ssum Rounded_Scalar].
    rewrite zip_with_diag, <- !list_fmap_compose.
    unfold ssum. cbn [sadd szero Rounded_Scalar].
    rewrite (list_fmap_compose Rabs (λ x, fl (x * x))).
    rewrite <- (list_fmap_compose Rabs (λ x, fl (x * x))).
    done.
  - intros x Hx. apply fl_bounds.
    destruct (Req_dec x 0) as [->|Hx0].
    { left. rewrite Rabs_R0. unfold Rdiv. ring. }
    right. pose proof (Rabs_pos_lt x Hx0) as Ha.
    assert (Haa : Rabs x * Rabs x = x * x)
      by (rewrite <- Rabs_mult; rewrite Rabs_pos_eq; nra).
    pose proof (l2_norm_sq_elem v x Hx) as HxS. fold S2 in HxS.
    pose proof (Hquot x Hx Hx0) as Hq. fold S2 in Hq. fold n in Hq.
    split.
    + apply Rmult_le_reg_r with norm; [done|].
      unfold Rdiv. rewrite Rmult_assoc, Rinv_l, Rmult_1_r by lra.
      assert ((lo * norm) * (lo * norm) <= Rabs x * Rabs x) by nra.
      assert (0 <= lo * norm) by nra.
      nra.
    + apply Rmult_le_reg_r with norm; [done|].
      unfold Rdiv. rewrite Rmult_assoc, Rinv_l, Rmult_1_r by lra.
      assert (Rabs x * Rabs x <= (hi * norm) * (hi * norm)).
      { rewrite Haa.
        set (a := hi * (1 - u) ^ (n + 3)) in *.
        assert (a <= hi * a) by nra.
        assert (S2 <= hi * a * S2) by nra.
        assert (hi * a * S2 = hi * hi * ((1 - u) ^ (n + 3) * S2))
          by (unfold a; ring).
        assert (0 <= hi * hi) by nra.
        assert (hi * hi * ((1 - u) ^ (n + 3) * S2)
                <= hi * hi * (norm * norm))
          by (apply Rmult_le_compat_l; lra).
        lra. }
      assert (0 <= hi * norm) by nra.
      nra.
Qed.
End Rounded.

(** C3, amended: under a rounding with relative error at most [u] on the
    magnitudes from [lo] to [hi], take a layer whose score vector [v] of
    [n] filters has a nonzero entry and is in range: the square of every
    nonzero score is at least [lo] and their sum at most [hi], with the
    margin of the rounding errors, and no quotient of a nonzero score by the
    norm falls below [lo].  Then [normalize_ranks_per_layer] replaces [v] by
    the rounded quotients of the absolute values by the computed norm; the
    squared computed norm is the sum of squares up to a factor between
    [(1-u)^(n+3)] and [(1+u)^(n+3)], all entries of the result are
    non-negative, and the squared L2 norm of the result lies between
    [(1-u)^2 / (1+u)^(n+3)] and [(1+u)^2 / (1-u)^(n+3)]. *)
Theorem normalize_ranks_per_layer_unit_in_range (fl : R → R) (u lo hi : R)
    (s : FilterPrunner R) (i : Z) (v : list R) :
  let n := length v in
  (0 <= u < 1)%R →
  (0 < lo <= 1)%R →
  (1 <= hi)%R →
  fl 0%R = 0%R →
  (∀ x, lo <= Rabs x <= hi → Rabs (fl x - x) <= u * Rabs x)%R →
  filter_ranks s !! i = Some v →
  (∃ x, x ∈ v ∧ x ≠ 0%R) →
  (∀ x, x ∈ v → x ≠ 0 → lo <= x * x * (1 - u) ^ S n)%R →
  (l2_norm_sq v * (1 + u) ^ S n <= hi)%R →
  (∀ x, x ∈ v → x ≠ 0 →
        lo * lo * (l2_norm_sq v * (1 + u) ^ (n + 3)) <= x * x)%R →
  (1 <= hi * (1 - u) ^ (n + 3))%R →
  ∃ v' norm,
    filter_ranks (@normalize_ranks_per_layer R (Rounded_Scalar fl) s) !! i
    = Some v'
    ∧ (0 < norm)%R
    ∧ ((1 - u) ^ (n + 3) * l2_norm_sq v <= norm * norm
       <= (1 + u) ^ (n + 3) * l2_norm_sq v)%R
    ∧ Forall2 (λ x y, (1 - u) * (Rabs x / norm) <= y
                      <= (1 + u) * (Rabs x / norm))%R v v'
    ∧ Forall (λ y, 0 <= y)%R v'
    ∧ ((1 - u) ^ 2 / (1 + u) ^ (n + 3) <= l2_norm_sq v'
       <= (1 + u) ^ 2 / (1 - u) ^ (n + 3))%R.
Proof.
  intros n Hu Hlo Hhi Hz Hacc Hi Hnz Hlow Hup Hquot Hone.
  destruct (normalize_vec_rounded fl u lo hi Hu Hlo Hhi Hz Hacc v
              Hnz Hlow Hup Hquot Hone) as (norm & Hv & Hnorm & Hnn & Hq).
  fold n in Hnn.
  pose proof (l2_norm_sq_pos v Hnz) as HS.
  pose proof (pow_1mu_pos u Hu (n + 3)) as HM3.
  pose proof (pow_1pu_ge1 u Hu (n + 3)) as HP3.
  assert (Hnn0 : (0 < norm * norm)%R) by nra.
  assert (Hentries : ∀ x, x ∈ v → (0 <= fl (Rabs x / norm))%R).
  { intros x Hx. destruct (Hq x Hx) as [Hl _].
    pose proof (Rabs_pos x).
    assert (0 <= Rabs x / norm)%R
      by (apply Rmult_le_pos; [done|left; by apply Rinv_0_lt_compat]).
    nra. }
  exists ((λ x, fl (Rabs x / norm)%R) <$> v), norm.
  split; [|split; [exact Hnorm|split; [exact Hnn|split; [|split]]]].
  - cbn. by rewrite lookup_fmap, Hi, <- Hv.
  - apply Forall2_fmap_r, Forall2_same_length_lookup. split; [done|].
    intros j x y Hx Hy. rewrite Hx in Hy. injection Hy as <-.
    apply Hq. by eapply list_elem_of_lookup_2.
  - apply Forall_fmap, Forall_forall. intros x Hx. by apply Hentries.
  - destruct (l2_norm_sq_scaled (λ x, fl (Rabs x / norm)%R)
                ((1 - u) ^ 2 / (norm * norm))%R
                ((1 + u) ^ 2 / (norm * norm))%R v) as [Hlower Hupper].
    { intros x Hx. destruct (Hq x Hx) as [Hl Hr].
      pose proof (Hentries x Hx) as H0. pose proof (Rabs_pos x) as Ha.
      assert (Haa : (Rabs x * Rabs x = x * x)%R)
        by (rewrite <- Rabs_mult; rewrite Rabs_pos_eq; nra).
      assert (Hd : (0 <= Rabs x / norm)%R)
        by (apply Rmult_le_pos; [done|left; by apply Rinv_0_lt_compat]).
      assert (Hdd : (Rabs x / norm * (Rabs x / norm)
                     = x * x / (norm * norm))%R)
        by (rewrite <- Haa; field; lra).
      assert (H1u : (0 <= 1 - u)%R) by lra.
      split.
      - replace ((1 - u) ^ 2 / (norm * norm) * (x * x))%R
          with ((1 - u) * (Rabs x / norm) * ((1 - u) * (Rabs x / norm)))%R
          by (replace ((1 - u) * (Rabs x / norm)
                       * ((1 - u) * (Rabs x / norm)))%R
                with ((1 - u) ^ 2 * (Rabs x / norm * (Rabs x / norm)))%R
                by ring; rewrite Hdd; field; lra).
        apply Rmult_le_compat; nra.
      - replace ((1 + u) ^ 2 / (norm * norm) * (x * x))%R
          with ((1 + u) * (Rabs x / norm) * ((1 + u) * (Rabs x / norm)))%R
          by (replace ((1 + u) * (Rabs x / norm)
                       * ((1 + u) * (Rabs x / norm)))%R
                with ((1 + u) ^ 2 * (Rabs x / norm * (Rabs x / norm)))%R
                by ring; rewrite Hdd; field; lra).
        apply Rmult_le_compat; nra. }
    set (S2 := l2_norm_sq v) in *.
    set (N2 := (norm * norm)%R) in *.
    assert (HM2 : (0 <= (1 - u) ^ 2)%R) by (apply pow_le; lra).
    assert (HP2 : (0 <= (1 + u) ^ 2)%R) by (apply pow_le; lra).
    split.
    + eapply Rle_trans; [|exact Hlower].
      apply Rmult_le_reg_r with ((1 + u) ^ (n + 3) * N2)%R; [nra|].
      replace ((1 - u) ^ 2 / (1 + u) ^ (n + 3) * ((1 + u) ^ (n + 3) * N2))%R
        with ((1 - u) ^ 2 * N2)%R by (field; lra).
      replace ((1 - u) ^ 2 / N2 * S2 * ((1 + u) ^ (n + 3) * N2))%R
        with ((1 - u) ^ 2 * ((1 + u) ^ (n + 3) * S2))%R by (field; lra).
      apply Rmult_le_compat_l; lra.
    + eapply Rle_trans; [exact Hupper|].
      apply Rmult_le_reg_r with ((1 - u) ^ (n + 3) * N2)%R; [nra|].
      replace ((1 + u) ^ 2 / (1 - u) ^ (n + 3) * ((1 - u) ^ (n + 3) * N2))%R
        with ((1 + u) ^ 2 * N2)%R by (field; lra).
      replace ((1 + u) ^ 2 / N2 * S2 * ((1 - u) ^ (n + 3) * N2))%R
        with ((1 + u) ^ 2 * ((1 - u) ^ (n + 3) * S2))%R by (field; lra).
      apply Rmult_le_compat_l; lra.
Qed.

Lemma normalize_ranks_per_layer_unit_in_range_witness :
  let u := (/ 16777216)%R in
  let s : FilterPrunner R :=
    {| activations := []; gradients := []; grad_index := 0;
       activation_to_layer := ∅;
       filter_ranks := {[0 := [3%R; (-4)%R]]}; hooked := [] |} in
  ∃ v' norm,
    filter_ranks
      (@normalize_ranks_per_layer R
         (Rounded_Scalar (λ x, x * (1 + / 33554432))%R) s)
      !! 0 = Some v'
    ∧ (0 < norm)%R
    ∧ ((1 - u) ^ 5 * l2_norm_sq [3; -4] <= norm * norm
       <= (1 + u) ^ 5 * l2_norm_sq [3; -4])%R
    ∧ Forall2 (λ x y, (1 - u) * (Rabs x / norm) <= y
                      <= (1 + u) * (Rabs x / norm))%R [3%R; (-4)%R] v'
    ∧ Forall (λ y, 0 <= y)%R v'
    ∧ ((1 - u) ^ 2 / (1 + u) ^ 5 <= l2_norm_sq v'
       <= (1 + u) ^ 2 / (1 - u) ^ 5)%R.
Proof.
  intros u s.
  apply (normalize_ranks_per_layer_unit_in_range
           (λ x, x * (1 + / 33554432))%R u (/ 1024)%R 1024%R s 0
           [3%R; (-4)%R]).
  - unfold u. lra.
  - lra.
  - lra.
  - lra.
  - intros x _.
    replace (x * (1 + / 33554432) - x)%R with (x * / 33554432)%R by ring.
    rewrite Rabs_mult, (Rabs_pos_eq (/ 33554432)) by lra.
    unfold u. pose proof (Rabs_pos x). lra.
  - reflexivity.
  - exists 3%R. split; [apply elem_of_cons; by left|lra].
  - intros x Hx _. unfold u. simpl pow.
    apply elem_of_cons in Hx as [->|Hx]; [lra|].
    apply elem_of_cons in Hx as [->|Hx]; [lra|].
    by apply elem_of_nil in Hx.
  - unfold u. simpl. lra.
  - intros x Hx _. unfold u. simpl.
    apply elem_of_cons in Hx as [->|Hx]; [lra|].
    apply elem_of_cons in Hx as [->|Hx]; [lra|].
    by apply elem_of_nil in Hx.
  - unfold u. simpl. lra.
Defined.

(** C3, counterexample: in single precision the score vector [0, 5e20] has
    a nonzero entry, but the square of [5e20] overflows: the computed norm
    is infinite and [normalize_ranks_per_layer] returns [0, 0], a vector of
    L2 norm 0. *)
Lemma normalize_ranks_per_layer_overflow :
  let v := [SpecFloat.S754_zero false;
            SpecFloat.S754_finite false 14210855 45] in
  filter_ranks ranker_f32 !! 0 = Some v
  ∧ (∃ x, x ∈ v ∧ x ≠ SpecFloat.S754_zero false)
  ∧ ssqrt (ssum (zip_with smul (sabs <$> v) (sabs <$> v)))
    = SpecFloat.S754_infinity false
  ∧ filter_ranks (normalize_ranks_per_layer ranker_f32) !! 0
    = Some [SpecFloat.S754_zero false; SpecFloat.S754_zero false].
Proof.
  intros v. split_and!.
  - reflexivity.
  - exists (SpecFloat.S754_finite false 14210855 45).
    split; [|done]. apply elem_of_cons. right. apply elem_of_cons. by left.
  - by vm_compute.
  - by vm_compute.
Qed.

(** In single precision [3, -4] is normalized to the binary32 numbers
    nearest to 0.6 and 0.8. *)
Lemma normalize_vec_f32_example :
  normalize_vec [f32_of_Z 3; SpecFloat.SFopp (f32_of_Z 4)]
  = [SpecFloat.S754_finite false 10066330 (-24);
     SpecFloat.S754_finite false 13421773 (-24)].
Proof. by vm_compute. Qed.

(** ** Accumulating the importance scores *)
Section ComputeRank.
Context {T : Type} `{Scalar T}.
Implicit Types (s : FilterPrunner T) (acts grads : list (tensor T)).

Lemma mean_023_length t : length (mean_023 t) = size1 t.
Proof.
  unfold mean_023, size1. destruct (t_shape t) as [[[n c] h] w]. simpl.
  by rewrite length_fmap, length_seq.
Qed.



Lemma viadd_same_length (a b : list T) :
  length a = length b → viadd a b = Ok (vadd a b).
Proof. intros Hab. unfold viadd. by rewrite Hab, Nat.eqb_refl. Qed.

End ComputeRank.

Section RankingPass.
Context {T : Type} `{Scalar T}.
Implicit Types (s : FilterPrunner T) (acts grads : list (tensor T)).
Implicit Types (chans : list nat).




End RankingPass.

(** The vectors of the code, element by element, in the words of the
    specification. *)
Section Importance.
Context {T : Type} `{Scalar T}.










End Importance.



(** On the example batches the pass computes, in single precision, the
    scores 57 and 105 for the two filters of the first layer and 79 for the
    filter of the second. *)
Lemma ranking_pass_f32_example :
  let s' := (ranking_pass batches_f32 ranker_f32).2 in
  filter_ranks s' !! 0 = Some [f32_of_Z 57; f32_of_Z 105]
  ∧ filter_ranks s' !! 1 = Some [f32_of_Z 79].
Proof. split; by vm_compute. Qed.

(** ** The forward pass of the ranker *)
Section Forward.
Context {T : Type} `{Scalar T}.

Lemma forward_loop_raises (modules : list (nat * Layer T)) :
  (∃ lm, lm ∈ modules ∧ is_conv2d lm.2 = true) →
  ∀ (x : tensor T) (l : list Z) (s : FilterPrunner T),
  ∃ s',
    forward_loop modules x (PyList l) s = (Raise TypeError, s')
    ∧ activation_to_layer s' = activation_to_layer s
    ∧ length (activations s') = S (length (activations s))
    ∧ length (hooked s') = S (length (hooked s)).
Proof.
  induction modules as [|[layer module] rest IH]; intros (lm & Hin & Hconv) x l s.
  - by apply elem_of_nil in Hin.
  - cbn [forward_loop]. destruct (is_conv2d module) eqn:Hm.
    + eexists. split; [reflexivity|]. cbn.
      by rewrite !length_app, !Nat.add_1_r.
    + apply IH. apply elem_of_cons in Hin as [->|Hin].
      * cbn in Hconv. congruence.
      * by exists lm.
Qed.
Lemma forward_loop_exn (modules : list (nat * Layer T)) (x : tensor T)
    (activation_index : pyval) (s : FilterPrunner T) (e : exn) :
  (forward_loop modules x activation_index s).1 = Raise e → e = TypeError.
Proof.
  revert x activation_index s.
  induction modules as [|[layer module] rest IH]; intros x ai s; [done|].
  cbn [forward_loop]. destruct (is_conv2d module); [|apply IH].
  destruct ai as [n|l]; [|by intros [= <-]].
  cbn. apply IH.
Qed.

Lemma forward_exn {Out : Type} (features : list (Layer T))
    (head : tensor T → Out) (x : tensor T) (s : FilterPrunner T) (e : exn) :
  (forward features head x s).1 = Raise e → e = TypeError.
Proof.
  unfold forward. unfold mbind at 1 2 3 4 5, M_bind at 1 2 3 4 5, modify.
  cbn beta iota. set (s0 := set_activation_to_layer _ _).
  pose proof (forward_loop_exn (imap pair features) x (PyList []) s0 e) as Hl.
  destruct (forward_loop _ _ _ s0) as [[y|e'] s1]; cbn in *; [done|].
  intros [= <-]. by apply Hl.
Qed.
End Forward.

(** C5 (the code departs from it): on a backbone with a convolutional layer,
    [forward] raises [TypeError] at the first such layer, where it uses the
    list bound to [activation_index] as a dictionary key; by then one
    activation is stored and one hook installed, no position is mapped to a
    layer, and no output is returned. *)
Theorem forward_raises_TypeError {T : Type} `{Scalar T} {Out : Type}
    (features : list (Layer T)) (head : tensor T → Out) (x : tensor T)
    (s : FilterPrunner T) :
  (∃ module, module ∈ features ∧ is_conv2d module = true) →
  ∃ s',
    forward features head x s = (Raise TypeError, s')
    ∧ activation_to_layer s' = ∅
    ∧ length (activations s') = 1%nat.
Proof.
  intros (module & Hin & Hconv). unfold forward.
  unfold mbind at 1 2 3 4 5, M_bind at 1 2 3 4 5, modify. cbn beta iota.
  set (s0 := set_activation_to_layer _ _).
  destruct (forward_loop_raises (imap pair features)) with (x := x) (l := @nil Z)
    (s := s0) as (s' & Hrun & Ha2l & Hacts & _).
  { apply list_elem_of_lookup in Hin as [i Hi]. exists (i, module).
    split; [|done]. apply list_elem_of_lookup. exists i.
    by rewrite list_lookup_imap, Hi. }
  exists s'. rewrite Hrun. split_and!; [done|by rewrite Ha2l|by rewrite Hacts].
Qed.

Lemma forward_raises_TypeError_witness :
  ∃ s',
    forward [ {| is_conv2d := true; call := λ t, t |};
              {| is_conv2d := false; call := λ t, t |} ]
            (λ t, t) (act_example 0 3) ranker_example
    = (Raise TypeError, s')
    ∧ activation_to_layer s' = ∅
    ∧ length (activations s') = 1%nat.
Proof.
  apply forward_raises_TypeError.
  eexists. split; [apply elem_of_cons; left; reflexivity|reflexivity].
Defined.

(** ** Reasoning about methods *)
Section Logic.
Context {S : Type} (R : S → S → Prop) `{!Reflexive R} `{!Transitive R}.

Lemma spec_ret {A : Type} (s : S) (a : A) (Q : A → Prop) :
  Q a → spec_at R s (mret a) Q.
Proof. intros HQ r s' [= <- <-]. split; [done|]. by intros ? [= <-]. Qed.

Lemma spec_raise {A : Type} (s : S) (e : exn) (Q : A → Prop) :
  spec_at R s (raise e) Q.
Proof. intros r s' [= <- <-]. split; [done|]. by intros ? [=]. Qed.

Lemma spec_lift {A : Type} (s : S) (r : result A) (Q : A → Prop) :
  (∀ a, r = Ok a → Q a) → spec_at R s (lift r) Q.
Proof. intros HQ r' s' [= <- <-]. by split. Qed.

Lemma spec_get (s : S) : spec_at R s get (λ a, a = s).
Proof. intros r s' [= <- <-]. split; [done|]. by intros ? [= <-]. Qed.

Lemma spec_modify (s : S) (f : S → S) (Q : unit → Prop) :
  R s (f s) → Q tt → spec_at R s (modify f) Q.
Proof. intros HR HQ r s' [= <- <-]. split; [done|]. by intros [] _. Qed.

Lemma spec_bind {A B : Type} (s : S) (m : M S A) (k : A → M S B)
    (Q : A → Prop) (Q' : B → Prop) :
  spec_at R s m Q →
  (∀ a s1, R s s1 → Q a → spec_at R s1 (k a) Q') →
  spec_at R s (m ≫= k) Q'.
Proof.
  intros Hm Hk r s'. unfold mbind, M_bind.
  destruct (m s) as [[a|e] s1] eqn:Hrun.
  - destruct (Hm _ _ Hrun) as [HR HQ]. intros Hk'.
    destruct (Hk a s1 HR (HQ a eq_refl) _ _ Hk') as [HR' HQ'].
    split; [by etrans|done].
  - destruct (Hm _ _ Hrun) as [HR _]. intros [= <- <-]. split; [done|].
    by intros ? [=].
Qed.

Lemma spec_get_bind {A : Type} (s : S) (k : S → M S A) (Q : A → Prop) :
  spec_at R s (k s) Q → spec_at R s (get ≫= k) Q.
Proof. intros Hk r s' Hrun. by apply Hk. Qed.

Lemma spec_modify_bind {A : Type} (s : S) (f : S → S) (k : unit → M S A)
    (Q : A → Prop) :
  R s (f s) → spec_at R (f s) (k tt) Q → spec_at R s (modify f ≫= k) Q.
Proof.
  intros HR Hk r s' Hrun. destruct (Hk r s' Hrun) as [HR' HQ].
  split; [by etrans|done].
Qed.

Lemma spec_lift_bind {A B : Type} (s : S) (r : result A) (k : A → M S B)
    (Q : B → Prop) :
  (∀ a, r = Ok a → spec_at R s (k a) Q) → spec_at R s (lift r ≫= k) Q.
Proof.
  intros Hk r' s'. unfold mbind, M_bind, lift. destruct r as [a|e].
  - by apply Hk.
  - intros [= <- <-]. split; [done|]. by intros ? [=].
Qed.

Lemma spec_weaken {A : Type} (s : S) (m : M S A) (Q Q' : A → Prop) :
  spec_at R s m Q → (∀ a, Q a → Q' a) → spec_at R s m Q'.
Proof.
  intros Hm HQ r s' Hrun. destruct (Hm _ _ Hrun) as [HR Hq].
  split; [done|]. intros a Ha. by apply HQ, Hq.
Qed.
End Logic.

Lemma bind_Ok_inv {S A B : Type} (m : M S A) (k : A → M S B) s b s' :
  (m ≫= k) s = (Ok b, s') → ∃ a s1, m s = (Ok a, s1) ∧ k a s1 = (Ok b, s').
Proof.
  unfold mbind, M_bind. destruct (m s) as [[a|e] s1]; [|done].
  intros Hk. by exists a, s1.
Qed.

(** ** What touches the tensors of the parameters *)
Section ParamFacts.
Context {V : Type} `{ParamOps V}.
Implicit Types (h : gmap nat (Param V)) (ps : list nat).

Lemma foldl_alter_data (f : nat → Param V → Param V) ps h (b : nat) :
  (∀ a p, p_data (f a p) = p_data p) →
  p_data <$> foldl (λ h a, alter (f a) a h) h ps !! b = p_data <$> h !! b.
Proof.
  intros Hf. revert h. induction ps as [|a ps IH]; intros h; [done|].
  cbn [foldl]. rewrite IH. destruct (decide (a = b)) as [->|Hne].
  - rewrite lookup_alter_eq. destruct (h !! b); simpl; [|done]. by rewrite Hf.
  - by rewrite lookup_alter_ne.
Qed.

Lemma foldl_alter_requires_grad (f : nat → Param V → Param V) ps h (b : nat) :
  (∀ a p, requires_grad (f a p) = requires_grad p) →
  requires_grad <$> foldl (λ h a, alter (f a) a h) h ps !! b
  = requires_grad <$> h !! b.
Proof.
  intros Hf. revert h. induction ps as [|a ps IH]; intros h; [done|].
  cbn [foldl]. rewrite IH. destruct (decide (a = b)) as [->|Hne].
  - rewrite lookup_alter_eq. destruct (h !! b); simpl; [|done]. by rewrite Hf.
  - by rewrite lookup_alter_ne.
Qed.

Lemma zero_grad_data ps h (b : nat) :
  p_data <$> zero_grad ps h !! b = p_data <$> h !! b.
Proof. unfold zero_grad. by apply (foldl_alter_data (λ _ p, _)). Qed.

Lemma backward_data (g : nat → V) ps h (b : nat) :
  p_data <$> backward g ps h !! b = p_data <$> h !! b.
Proof.
  unfold backward.
  apply (foldl_alter_data
           (λ a p, if requires_grad p then set_p_grad _ p else p)).
  intros a p. by destruct (requires_grad p).
Qed.

Lemma setattr_all_data (name : string) (v : bool) ps h (b : nat) :
  p_data <$> setattr_all name v ps h !! b = p_data <$> h !! b.
Proof.
  unfold setattr_all. apply (foldl_alter_data (λ _ p, setattr name v p)).
  intros _ p. unfold setattr. by case_decide.
Qed.

Lemma step_param_data (lr momentum : Q) (st : gmap nat (Param V) * gmap nat V)
    (a b : nat) :
  a ≠ b →
  p_data <$> (step_param lr momentum st a).1 !! b = p_data <$> st.1 !! b.
Proof.
  intros Hne. destruct st as [h bufs]. unfold step_param.
  destruct (h !! a) as [p|]; [|done]. destruct (p_grad p); [|done].
  cbn [fst]. by rewrite lookup_insert_ne.
Qed.

Lemma SGD_step_data (o : SGD V) h (b : nat) :
  b ∉ o_params o → p_data <$> (SGD_step o h).2 !! b = p_data <$> h !! b.
Proof.
  intros Hb. unfold SGD_step.
  assert (Hfold : ∀ ps st, b ∉ ps →
            p_data <$> (foldl (step_param (o_lr o) (o_momentum o)) st ps).1 !! b
            = p_data <$> st.1 !! b).
  { induction ps as [|a ps IH]; intros st Hps; [done|].
    apply not_elem_of_cons in Hps as [Hne Hps].
    cbn [foldl]. rewrite IH by done. by apply step_param_data. }
  specialize (Hfold (o_params o) (h, o_buf o) Hb).
  by destruct (foldl _ _ _).
Qed.

Lemma SGD_step_params (o : SGD V) h : o_params (SGD_step o h).1 = o_params o.
Proof. unfold SGD_step. by destruct (foldl _ _ _). Qed.
Lemma foldl_alter_lookup (f : nat → Param V → Param V) ps h (b : nat) :
  foldl (λ h a, alter (f a) a h) h ps !! b
  = Nat.iter (length (filter (λ a, a = b) ps)) (f b) <$> h !! b.
Proof.
  revert h. induction ps as [|a ps IH]; intros h.
  - cbn. by destruct (h !! b).
  - cbn [foldl]. rewrite IH, filter_cons.
    destruct (decide (a = b)) as [->|Hne].
    + rewrite lookup_alter_eq. cbn [length]. rewrite <- option_fmap_compose.
      apply option_fmap_ext. intros p. unfold compose. symmetry.
      apply Nat.iter_succ_r.
    + by rewrite lookup_alter_ne.
Qed.

Lemma filter_eq_length_pos (ps : list nat) (b : nat) :
  b ∈ ps → ∃ n, length (filter (λ a, a = b) ps) = S n.
Proof.
  intros Hin. destruct (filter (λ a, a = b) ps) as [|x l] eqn:Hf.
  - exfalso. eapply (not_elem_of_nil b). rewrite <- Hf.
    by apply list_elem_of_filter.
  - by exists (length l).
Qed.

Lemma setattr_other (name : string) (v : bool) (p : Param V) :
  name ≠ "requires_grad" →
  requires_grad (setattr name v p) = requires_grad p
  ∧ p_dict (setattr name v p) !! name = Some v.
Proof.
  intros Hname. unfold setattr. rewrite decide_False by done. cbn.
  split; [done|]. by rewrite lookup_insert_eq.
Qed.

Lemma setattr_all_lookup (name : string) (v : bool) ps h (b : nat) p :
  name ≠ "requires_grad" →
  b ∈ ps → h !! b = Some p →
  ∃ p', setattr_all name v ps h !! b = Some p'
        ∧ requires_grad p' = requires_grad p
        ∧ p_dict p' !! name = Some v.
Proof.
  intros Hname Hin Hb. unfold setattr_all.
  rewrite (foldl_alter_lookup (λ _, setattr name v)), Hb.
  destruct (filter_eq_length_pos ps b Hin) as [n ->].
  eexists. split; [done|]. rewrite Nat.iter_succ.
  assert (Hiter : requires_grad (Nat.iter n (setattr name v) p)
                  = requires_grad p).
  { induction n as [|n IH]; [done|]. rewrite Nat.iter_succ.
    by rewrite (proj1 (setattr_other name v _ Hname)). }
  destruct (setattr_other name v (Nat.iter n (setattr name v) p) Hname)
    as [Hr Hd].
  split; [by rewrite Hr|done].
Qed.

Lemma backward_lookup (g : nat → V) ps h (b : nat) p :
  b ∈ ps → h !! b = Some p → requires_grad p = true →
  ∃ p', backward g ps h !! b = Some p' ∧ is_Some (p_grad p').
Proof.
  intros Hin Hb Hreq. unfold backward.
  rewrite (foldl_alter_lookup
             (λ a p, if requires_grad p
                     then set_p_grad (Some (match p_grad p with
                                            | None => g a
                                            | Some old => vplus old (g a)
                                            end)) p
                     else p)), Hb.
  destruct (filter_eq_length_pos ps b Hin) as [n ->].
  eexists. split; [done|]. rewrite Nat.iter_succ.
  match goal with |- context [Nat.iter n ?f p] => set (F := f) end.
  assert (Hiter : requires_grad (Nat.iter n F p) = true).
  { induction n as [|n IH]; [done|]. rewrite Nat.iter_succ. unfold F at 1.
    cbn beta. by rewrite IH. }
  rewrite Hiter. by eexists.
Qed.
End ParamFacts.

(** ** The orchestrator *)
Section FineTunerFacts.
Context {T : Type} `{Scalar T} {V : Type} `{ParamOps V}.
Context {Label Logits : Type}.
Context (autograd :
  gmap nat (Param V) → Model T V Logits → tensor T → Label → nat → V).
Context (n_correct :
  gmap nat (Param V) → Model T V Logits → tensor T → Label → nat).
Context (label_size : Label → nat).
Implicit Types (s : PrunningFineTuner T V Label Logits).
Implicit Types (P : Event T → Prop) (A : nat → Prop).

Ltac tc := try (apply _).

#[local] Instance evolves_refl P A :
  Reflexive (@evolves T V Label Logits P A).
Proof.
  intros s. split_and!; try done. exists []. by rewrite app_nil_r.
Qed.

#[local] Instance evolves_trans P A :
  Transitive (@evolves T V Label Logits P A).
Proof.
  intros s1 s2 s3 (Hm & Htr & Hte & (n1 & Ht1 & Hn1) & Hd)
    (Hm' & Htr' & Hte' & (n2 & Ht2 & Hn2) & Hd').
  split_and!; try congruence.
  - exists (n1 ++ n2). rewrite Ht2, Ht1, app_assoc. split; [done|].
    by apply Forall_app.
  - intros a Ha. by rewrite Hd', Hd.
Qed.

Lemma evolves_set_params P A f s :
  (∀ a, A a → p_data <$> f (params s) !! a = p_data <$> params s !! a) →
  evolves P A s (set_params f s).
Proof.
  intros Hf. split_and!; try done. exists []. by rewrite app_nil_r.
Qed.

Lemma evolves_set_training P A f s : evolves P A s (set_training f s).
Proof. split_and!; try done. exists []. by rewrite app_nil_r. Qed.

Lemma evolves_set_prunner P A f s : evolves P A s (set_prunner f s).
Proof. split_and!; try done. exists []. by rewrite app_nil_r. Qed.

Lemma evolves_set_files P A f s : evolves P A s (set_files f s).
Proof. split_and!; try done. exists []. by rewrite app_nil_r. Qed.

Lemma evolves_log P A (e : Event T) s :
  P e → evolves P A s (set_trace (λ t, t ++ [e]) s).
Proof.
  intros He. split_and!; try done. exists [e]. split; [done|].
  by apply Forall_singleton.
Qed.

Lemma spec_log_bind {B : Type} P A (e : Event T) s
    (k : unit → M (PrunningFineTuner T V Label Logits) B) (Q : B → Prop) :
  P e →
  spec_at (evolves P A) (set_trace (λ t, t ++ [e]) s) (k tt) Q →
  spec_at (evolves P A) s (log e ≫= k) Q.
Proof.
  intros He Hk. unfold log. apply spec_modify_bind; tc; [|done].
  by apply evolves_log.
Qed.

Lemma spec_on_prunner {B : Type} P A (m : M (FilterPrunner T) B) s :
  spec_at (evolves P A) s (on_prunner m) (λ _, True).
Proof.
  intros r s'. unfold on_prunner. destruct (m (prunner s)) as [r0 p].
  intros [= <- <-]. split; [apply evolves_set_prunner|done].
Qed.

Lemma spec_test P A s :
  (∀ c t, P (EvAccuracy c t)) →
  spec_at (evolves P A) s (test n_correct label_size) (λ _, True).
Proof.
  intros HP. unfold test.
  apply spec_modify_bind; tc; [apply evolves_set_training|].
  apply spec_get_bind. destruct (foldl _ _ _) as [correct total].
  eapply spec_bind; tc.
  - case_decide; [apply spec_raise; tc|].
    by apply (spec_ret _ _ _ (λ _, True)); tc.
  - intros [] s1 _ _. apply spec_log_bind; [done|].
    apply spec_modify; tc; [apply evolves_set_training|done].
Qed.
Lemma spec_on_prunner_modify_bind {B : Type} P A (f : FilterPrunner T → FilterPrunner T)
    s (k : unit → M (PrunningFineTuner T V Label Logits) B) (Q : B → Prop) :
  spec_at (evolves P A) (set_prunner (λ _, f (prunner s)) s) (k tt) Q →
  spec_at (evolves P A) s (on_prunner (modify f) ≫= k) Q.
Proof.
  intros Hk r s' Hrun. destruct (Hk r s' Hrun) as [HR HQ].
  split; [|done]. etrans; [apply evolves_set_prunner|exact HR].
Qed.

Section Runs.
Variables (P : Event T → Prop) (A : nat → Prop).
Hypothesis P_forward : P EvRankerForward.
Hypothesis P_backward : P EvBackward.
Hypothesis P_step : P EvStep.
Hypothesis P_accuracy : ∀ c t, P (EvAccuracy c t).
Hypothesis P_epoch : ∀ m, P (EvEpoch false m).
Hypothesis P_ranking_epoch : P (EvEpoch true ∅).

Lemma spec_train_batch_ranking optimizer batch label s :
  spec_at (evolves P A) s (train_batch autograd optimizer batch label true)
          (λ _, False).
Proof using P_forward.
  unfold train_batch. apply spec_get_bind.
  apply spec_modify_bind; tc.
  { apply evolves_set_params. intros a _. apply zero_grad_data. }
  cbn zeta. apply spec_get_bind. apply spec_log_bind; [done|].
  eapply spec_bind; tc; [apply spec_on_prunner|].
  intros output s1 _ _. apply spec_raise; tc.
Qed.

Lemma spec_train_batch_plain optimizer batch label s :
  spares A optimizer →
  spec_at (evolves P A) s (train_batch autograd optimizer batch label false)
          (λ r, o_params <$> r = o_params <$> optimizer).
Proof using P_backward P_step.
  intros Hsp. unfold train_batch. apply spec_get_bind.
  apply spec_modify_bind; tc.
  { apply evolves_set_params. intros a _. apply zero_grad_data. }
  cbn zeta. apply spec_get_bind.
  apply spec_modify_bind; tc.
  { apply evolves_set_params. intros a _. apply backward_data. }
  apply spec_log_bind; [done|].
  destruct optimizer as [o|]; [|apply spec_raise; tc].
  apply spec_get_bind.
  pose proof (SGD_step_params o) as Hps.
  pose proof (SGD_step_data o) as Hdata.
  set (s1 := set_trace _ _) in *.
  specialize (Hps (params s1)). specialize (Hdata (params s1)).
  destruct (SGD_step o (params s1)) as [o' h]. cbn [fst snd] in Hps, Hdata.
  apply spec_modify_bind; tc.
  { apply evolves_set_params. intros a Ha. apply Hdata. by apply (Hsp o). }
  apply spec_log_bind; [done|].
  apply spec_ret; tc. cbn. by rewrite Hps.
Qed.

Lemma spec_train_batch optimizer batch label rank_filters s :
  spares A optimizer →
  spec_at (evolves P A) s
          (train_batch autograd optimizer batch label rank_filters)
          (λ r, o_params <$> r = o_params <$> optimizer).
Proof using P_forward P_backward P_step.
  intros Hsp. destruct rank_filters.
  - eapply spec_weaken; [apply spec_train_batch_ranking|done].
  - by apply spec_train_batch_plain.
Qed.

Lemma spares_params (o o' : option (SGD V)) :
  o_params <$> o' = o_params <$> o → spares A o → spares A o'.
Proof.
  intros Heq Hsp o1 -> a Ha. destruct o as [o|]; [|done].
  injection Heq as Heq. rewrite Heq. by apply (Hsp o).
Qed.

Lemma spec_train_batches data optimizer rank_filters s :
  spares A optimizer →
  spec_at (evolves P A) s
          (train_batches autograd data optimizer rank_filters)
          (λ r, o_params <$> r = o_params <$> optimizer).
Proof using P_forward P_backward P_step.
  revert optimizer s. induction data as [|[batch label] data IH];
    intros optimizer s Hsp.
  - by apply spec_ret; tc.
  - cbn [train_batches]. eapply spec_bind; tc.
    + by apply spec_train_batch.
    + intros o' s1 _ Ho'. cbn beta in Ho'.
      eapply spec_weaken; [apply IH; by eapply spares_params|].
      intros r Hr. cbn beta in Hr. congruence.
Qed.

Lemma spec_train_epoch optimizer rank_filters s :
  spares A optimizer →
  P (EvEpoch rank_filters (filter_ranks (prunner s))) →
  spec_at (evolves P A) s (train_epoch autograd optimizer rank_filters)
          (λ r, o_params <$> r = o_params <$> optimizer).
Proof using P_forward P_backward P_step.
  intros Hsp HP. unfold train_epoch. apply spec_get_bind.
  apply spec_log_bind; [done|]. by apply spec_train_batches.
Qed.

Lemma spec_train_epochs epochs optimizer s :
  spares A optimizer →
  spec_at (evolves P A) s
          (train_epochs autograd n_correct label_size epochs optimizer)
          (λ _, True).
Proof using P_forward P_backward P_step P_accuracy P_epoch.
  revert optimizer s. induction epochs as [|epochs IH]; intros optimizer s Hsp.
  - by apply spec_ret; tc.
  - cbn [train_epochs]. eapply spec_bind; tc.
    + by apply spec_train_epoch.
    + intros o' s1 _ Ho'. cbn beta in Ho'.
      eapply spec_bind; tc; [by apply spec_test|].
      intros [] s2 _ _. apply IH. by eapply spares_params.
Qed.

Lemma spec_train optimizer epochs s :
  spares A optimizer →
  (optimizer = None → ∀ a, A a → a ∉ classifier (model s)) →
  spec_at (evolves P A) s
          (train autograd n_correct label_size optimizer epochs) (λ _, True).
Proof using P_forward P_backward P_step P_accuracy P_epoch.
  intros Hsp Hcl. unfold train. eapply spec_bind; tc.
  - instantiate (1 := λ o, spares A (Some o)).
    destruct optimizer as [o|].
    + by apply spec_ret; tc.
    + apply spec_get_bind. apply spec_lift; tc.
      intros o Ho. unfold SGD_init in Ho.
      destruct (classifier (model s)) as [|c cs] eqn:Hc; [done|].
      injection Ho as <-. intros o' [= <-] a Ha. cbn. by apply Hcl.
  - intros o s1 _ Ho. by apply spec_train_epochs.
Qed.

Lemma spec_get_candidates_to_prune num s :
  spec_at (evolves P A) s (get_candidates_to_prune autograd num) (λ _, False).
Proof using P_forward P_backward P_step P_ranking_epoch.
  unfold get_candidates_to_prune. apply spec_on_prunner_modify_bind.
  eapply spec_bind; tc.
  - apply spec_train_epoch; [by intros o ?|]. exact P_ranking_epoch.
  - intros o s1 _ _. eapply spec_bind; tc; [apply spec_on_prunner|].
    intros [] s2 _ _. apply spec_raise; tc.
Qed.

Lemma spec_prune_iterations iterations num s :
  spec_at (evolves P A) s (prune_iterations autograd iterations num)
          (λ _, iterations = 0%nat).
Proof using P_forward P_backward P_step P_ranking_epoch.
  destruct iterations as [|n]; [by apply spec_ret; tc|].
  cbn [prune_iterations]. eapply spec_bind with (Q := λ _, False); tc.
  - unfold prune_iteration. eapply spec_bind; tc.
    + apply spec_get_candidates_to_prune.
    + intros targets s1 _ [].
  - intros [] s1 _ [].
Qed.
Lemma spec_train_batches_ranking data optimizer s :
  spec_at (evolves P A) s (train_batches autograd data optimizer true)
          (λ _, data = []).
Proof using P_forward.
  destruct data as [|[batch label] data]; [by apply spec_ret; tc|].
  cbn [train_batches]. eapply spec_bind; tc.
  - apply spec_train_batch_ranking.
  - intros o s1 _ [].
Qed.

Lemma spec_prune s :
  (∀ a, A a → a ∉ parameters (model s)) →
  spec_at (evolves P A) s (prune autograd n_correct label_size) (λ _, True).
Proof using P_forward P_backward P_step P_accuracy P_epoch P_ranking_epoch.
  intros HA. unfold prune.
  eapply spec_bind; tc; [by apply spec_test|].
  intros [] s1 (Hm1 & _) _.
  apply spec_modify_bind; tc; [apply evolves_set_training|].
  apply spec_get_bind.
  apply spec_modify_bind; tc.
  { apply evolves_set_params. intros a _. apply setattr_all_data. }
  apply spec_get_bind. cbn zeta.
  eapply spec_bind; tc; [apply spec_prune_iterations|].
  intros [] s2 (Hm2 & _) _. apply spec_get_bind.
  apply spec_lift_bind; tc. intros o Ho.
  assert (Hps : o_params o = parameters (model s)).
  { unfold SGD_init in Ho. rewrite Hm2 in Ho. cbn in Ho. rewrite Hm1 in Ho.
    destruct (parameters (model s)); [done|]. by injection Ho as <-. }
  eapply spec_bind; tc.
  - apply spec_train; [|done]. intros o' [= <-] a Ha. rewrite Hps. by apply HA.
  - intros [] s3 _ _. apply spec_get_bind. unfold torch_save.
    apply spec_modify; tc; [apply evolves_set_files|done].
Qed.
End Runs.
Lemma never_returns {B : Type} P A s
    (m : M (PrunningFineTuner T V Label Logits) B) r s' :
  spec_at (evolves P A) s m (λ _, False) → m s = (r, s') →
  (∃ e, r = Raise e) ∧ evolves P A s s'.
Proof.
  intros Hm Hrun. destruct (Hm r s' Hrun) as [HR HQ]. split; [|done].
  destruct r as [b|e]; [destruct (HQ b eq_refl)|by exists e].
Qed.

Lemma get_candidates_to_prune_trace num s :
  ∃ e s' rest,
    get_candidates_to_prune autograd num s = (Raise e, s')
    ∧ trace s' = trace s ++ EvEpoch true ∅ :: rest
    ∧ Forall (λ ev, ev = EvRankerForward) rest.
Proof.
  set (s2 := set_trace (λ t, t ++ [EvEpoch true ∅])
               (set_prunner (λ _, reset (prunner s)) s)).
  set (tail := train_batches autograd (train_data_loader s2) None true
               ≫= λ _, on_prunner (modify normalize_ranks_per_layer)
               ≫= λ _, raise (A := list (nat * Z))
                             (NameError "num_filter_to_prune")).
  assert (Hrun : get_candidates_to_prune autograd num s = tail s2) by done.
  assert (Htail : spec_at (evolves (λ ev, ev = EvRankerForward) (λ _, False))
                    s2 tail (λ _, False)).
  { unfold tail. eapply spec_bind; tc.
    - by apply spec_train_batches_ranking.
    - intros o s3 _ _. eapply spec_bind; tc; [apply spec_on_prunner|].
      intros [] s4 _ _. apply spec_raise; tc. }
  destruct (tail s2) as [r s'] eqn:Heq.
  destruct (never_returns _ _ _ _ _ _ Htail Heq)
    as [[e ->] (_ & _ & _ & (rest & Htr & Hrest) & _)].
  exists e, s', rest. split_and!; [done| |done].
  rewrite Htr. unfold s2. cbn. by rewrite <- app_assoc.
Qed.

Lemma prune_trace s r s' :
  prune autograd n_correct label_size s = (r, s') →
  ∃ new, trace s' = trace s ++ new ∧ ∀ m, EvEpoch true m ∈ new → m = ∅.
Proof.
  intros Hrun.
  destruct (spec_prune (λ ev, ∀ m, ev = EvEpoch true m → m = ∅) (λ _, False))
    with (s := s) (r := r) (s' := s')
    as [(_ & _ & _ & (new & Htr & Hnew) & _) _]; try done.
  { by intros m [= <-]. }
  exists new. split; [done|]. intros m Hin.
  rewrite Forall_forall in Hnew. by apply (Hnew _ Hin).
Qed.

Lemma train_trace optimizer epochs s r s' :
  train autograd n_correct label_size optimizer epochs s = (r, s') →
  ∃ new, trace s' = trace s ++ new ∧ ∀ m, EvEpoch true m ∉ new.
Proof.
  intros Hrun.
  destruct (spec_train (λ ev, ∀ m, ev ≠ EvEpoch true m) (λ _, False))
    with (optimizer := optimizer) (epochs := epochs) (s := s)
         (r := r) (s' := s')
    as [(_ & _ & _ & (new & Htr & Hnew) & _) _]; try done.
  { by intros o _ a []. }
  exists new. split; [done|]. intros m Hin.
  rewrite Forall_forall in Hnew. by apply (Hnew _ Hin m).
Qed.

(** The initial fine-tuning: the default optimizer of [train] holds the
    parameters of the classifier, and only their tensors change. *)
Lemma train_default_spares (A : nat → Prop) epochs s r s' :
  (∀ a, A a → a ∉ classifier (model s)) →
  train autograd n_correct label_size None epochs s = (r, s') →
  ∀ a, A a → p_data <$> params s' !! a = p_data <$> params s !! a.
Proof.
  intros HA Hrun.
  destruct (spec_train (λ _, True) A) with (optimizer := @None (SGD V))
    (epochs := epochs) (s := s) (r := r) (s' := s')
    as [(_ & _ & _ & _ & Hdata) _]; done.
Qed.
End FineTunerFacts.

Section FineTunerClaims.
Context {T : Type} `{Scalar T} {V : Type} `{ParamOps V}.
Context {Label Logits : Type}.
Context (autograd :
  gmap nat (Param V) → Model T V Logits → tensor T → Label → nat → V).
Context (n_correct :
  gmap nat (Param V) → Model T V Logits → tensor T → Label → nat).
Context (label_size : Label → nat).
Implicit Types (s : PrunningFineTuner T V Label Logits).

(** C6 (the code departs from it): in ranking mode [train_batch] runs the
    forward pass of the ranker and then raises, [TypeError] from that pass
    or [NameError] for the name [sekf]; no backward pass takes place, so no
    callback is triggered.  What the claim says of the optimizer holds: it
    is not stepped, the tensor of every parameter is unchanged, and outside
    ranking mode a batch with an optimizer ends in backward pass and
    optimizer step. *)
Theorem train_batch_ranking_raises (optimizer : option (SGD V))
    (batch : tensor T) (label : Label) s :
  (∃ e s',
     train_batch autograd optimizer batch label true s = (Raise e, s')
     ∧ (e = TypeError ∨ e = NameError "sekf")
     ∧ trace s' = trace s ++ [EvRankerForward]
     ∧ ∀ a, p_data <$> params s' !! a = p_data <$> params s !! a)
  ∧ (∀ o, ∃ o' s',
       train_batch autograd (Some o) batch label false s = (Ok (Some o'), s')
       ∧ trace s' = trace s ++ [EvBackward; EvStep]).
Proof.
  split.
  - unfold train_batch.
    unfold mbind, M_bind, get, modify, log, on_prunner, raise. cbn.
    match goal with
    | |- context [forward ?f ?h ?x ?p] =>
        pose proof (forward_exn f h x p) as Hexn;
        destruct (forward f h x p) as [[out|e] p']
    end.
    + eexists _, _. split; [reflexivity|]. split_and!; [by right|done|].
      intros a. cbn. apply zero_grad_data.
    + eexists _, _. split; [reflexivity|].
      split_and!; [left; by apply Hexn|done|].
      intros a. cbn. apply zero_grad_data.
  - intros o. unfold train_batch.
    unfold mbind, M_bind, get, modify, log, mret, M_ret. cbn.
    destruct (SGD_step o _) as [o' h]. cbn.
    eexists _, _. split; [reflexivity|]. cbn. by rewrite <- app_assoc.
Qed.

(** C7 (the code departs from it): [total_num_filters] returns 0 whatever
    the backbone is, because its loop assigns the sum to another variable
    than the one it returns; so the iteration count of [prune] is 0. *)
Theorem total_num_filters_returns_zero s :
  total_num_filters s = 0
  ∧ prune_iteration_count (total_num_filters s) 512 = 0.
Proof.
  assert (Hz : total_num_filters s = 0).
  { unfold total_num_filters.
    assert (Hfold : ∀ (mods : list (Module T V)) (fitlers : Z),
              (foldl (λ (vars : Z * Z) md,
                        let '(filters, fitlers) := vars in
                        match conv2d md with
                        | Some out_channels =>
                            (filters, filters + Z.of_nat out_channels)
                        | None => (filters, fitlers)
                        end) (0, fitlers) mods).1 = 0).
    { induction mods as [|md mods IH]; intros fitlers; [done|].
      cbn [foldl]. destruct (conv2d md); apply IH. }
    specialize (Hfold (features (model s)) 0).
    by destruct (foldl _ _ _). }
  split; [done|]. by rewrite Hz.
Qed.

(** C8 (the code departs from it): when [prune] runs to completion, the
    artifact [model_prunned] holds the method object [model.state_dict]
    bound to the model, not the state dict that calling it returns. *)
Theorem prune_saves_bound_method s s' :
  prune autograd n_correct label_size s = (Ok tt, s') →
  files s' !! "model_prunned"
  = Some (SavedBoundMethod (model s') (params s') "state_dict")
  ∧ files s' !! "model_prunned"
    ≠ Some (SavedStateDict (state_dict (model s') (params s'))).
Proof.
  intros Hrun. unfold prune in Hrun.
  repeat (apply bind_Ok_inv in Hrun as (? & ? & Hm & Hrun);
          first [unfold get in Hm; injection Hm as <- <-|clear Hm]).
  unfold torch_save, modify in Hrun. injection Hrun as <-.
  cbn. by rewrite lookup_insert_eq.
Qed.
End FineTunerClaims.

Lemma prune_saves_bound_method_witness :
  let s' := (prune autograd_example n_correct_example label_size_example
                   tuner_example).2 in
  files s' !! "model_prunned"
  = Some (SavedBoundMethod (model s') (params s') "state_dict")
  ∧ files s' !! "model_prunned"
    ≠ Some (SavedStateDict (state_dict (model s') (params s'))).
Proof.
  intros s'.
  apply (prune_saves_bound_method autograd_example n_correct_example
           label_size_example tuner_example s').
  unfold s'. vm_compute. reflexivity.
Defined.

(** The failing input of C7: a backbone whose only convolutional layer has
    64 filters. *)
Lemma total_num_filters_example :
  total_num_filters tuner_example = 0
  ∧ sum_list (omap conv2d (features (model tuner_example))) = 64%nat.
Proof. by vm_compute. Qed.

Section RankingEpochs.
Context {T : Type} `{Scalar T} {V : Type} `{ParamOps V}.
Context {Label Logits : Type}.
Context (autograd :
  gmap nat (Param V) → Model T V Logits → tensor T → Label → nat → V).
Context (n_correct :
  gmap nat (Param V) → Model T V Logits → tensor T → Label → nat).
Context (label_size : Label → nat).

(** C9: every ranking epoch begins from an empty rank table.
    [get_candidates_to_prune] resets the ranker before its ranking pass, so
    the one ranking epoch it starts begins with the empty table; [prune]
    starts ranking epochs only through it, and [train] starts none. *)
Theorem ranking_epoch_starts_empty (num : nat)
    (s : PrunningFineTuner T V Label Logits) :
  (∃ e s' rest,
     get_candidates_to_prune autograd num s = (Raise e, s')
     ∧ trace s' = trace s ++ EvEpoch true ∅ :: rest
     ∧ Forall (λ ev, ev = EvRankerForward) rest)
  ∧ (∀ r s',
       prune autograd n_correct label_size s = (r, s') →
       ∃ new, trace s' = trace s ++ new
              ∧ ∀ m, EvEpoch true m ∈ new → m = ∅)
  ∧ (∀ optimizer epochs r s',
       train autograd n_correct label_size optimizer epochs s = (r, s') →
       ∃ new, trace s' = trace s ++ new ∧ ∀ m, EvEpoch true m ∉ new).
Proof.
  split_and!.
  - apply get_candidates_to_prune_trace.
  - intros r s'. apply prune_trace.
  - intros optimizer epochs r s'. apply train_trace.
Qed.

(** C10, amended: the constructor of [Model] and of [MobileModel] leaves
    [requires_grad] of every backbone parameter as it was, true for the
    pretrained backbone, because its loop sets the attribute
    [required_grad]; so the backbone is not frozen and a backward pass gives
    its parameters gradients.  The initial fine-tuning, [train] with its
    default optimizer, still leaves the backbone weights unchanged: that
    optimizer holds the parameters of the classifier only. *)
Theorem Model_init_backbone_not_frozen (mobile : bool)
    (pretrained_features : list (Module T V)) (fc : list nat)
    (hd : gmap nat (Param V) → tensor T → Logits) (h : gmap nat (Param V))
    (g : nat → V) (train_loader test_loader : list (tensor T * Label))
    (epochs : nat) :
  (∀ a, a ∈ (md ← pretrained_features; m_parameters md) →
        ∃ p, h !! a = Some p ∧ requires_grad p = true) →
  (∀ a, a ∈ (md ← pretrained_features; m_parameters md) → a ∉ fc) →
  let mh := if mobile then MobileModel_init pretrained_features fc hd h
            else Model_init pretrained_features fc hd h in
  (∀ a, a ∈ features_parameters mh.1 →
        ∃ p, mh.2 !! a = Some p
             ∧ requires_grad p = true
             ∧ p_dict p !! "required_grad" = Some false)
  ∧ (∀ a, a ∈ features_parameters mh.1 →
          ∃ p, backward g (parameters mh.1) mh.2 !! a = Some p
               ∧ is_Some (p_grad p))
  ∧ (∀ r s',
       train autograd n_correct label_size None epochs
             (PrunningFineTuner_init train_loader test_loader mh.1 mh.2)
       = (r, s') →
       ∀ a, a ∈ features_parameters mh.1 →
            p_data <$> params s' !! a = p_data <$> h !! a).
Proof.
  intros Hpre Hfc mh.
  assert (Hfp : features_parameters mh.1
                = (md ← pretrained_features; m_parameters md)).
  { unfold mh. by destruct mobile. }
  assert (Hh : mh.2 = setattr_all "required_grad" false
                        (md ← pretrained_features; m_parameters md) h).
  { unfold mh. by destruct mobile. }
  assert (Hinit : ∀ a, a ∈ features_parameters mh.1 →
            ∃ p, mh.2 !! a = Some p ∧ requires_grad p = true
                 ∧ p_dict p !! "required_grad" = Some false).
  { intros a Ha. rewrite Hfp in Ha. destruct (Hpre a Ha) as (p & Hp & Hreq).
    destruct (setattr_all_lookup "required_grad" false
                (md ← pretrained_features; m_parameters md) h a p) as
      (p' & Hp' & Hreq' & Hdict); [done|exact Ha|exact Hp|].
    exists p'. rewrite Hh. split_and!; [done|congruence|done]. }
  split_and!.
  - exact Hinit.
  - intros a Ha. destruct (Hinit a Ha) as (p & Hp & Hreq & _).
    apply (backward_lookup g _ _ a p); [|done|done].
    unfold parameters. apply elem_of_app. by left.
  - intros r s' Hrun a Ha.
    rewrite (train_default_spares autograd n_correct label_size
               (λ a, a ∈ features_parameters mh.1) epochs
               (PrunningFineTuner_init train_loader test_loader mh.1 mh.2)
               r s'); [| |exact Hrun|exact Ha].
    + cbn. rewrite Hh. apply setattr_all_data.
    + intros b Hb. cbn. rewrite Hfp in Hb. unfold mh.
      destruct mobile; cbn; [apply not_elem_of_nil|by apply Hfc].
Qed.
End RankingEpochs.

Lemma Model_init_backbone_not_frozen_witness :
  let mh := Model_init features_example [1%nat] (λ _ _, tt) heap_example in
  (∀ a, a ∈ features_parameters mh.1 →
        ∃ p, mh.2 !! a = Some p
             ∧ requires_grad p = true
             ∧ p_dict p !! "required_grad" = Some false)
  ∧ (∀ a, a ∈ features_parameters mh.1 →
          ∃ p, backward (λ _, 1%Q) (parameters mh.1) mh.2 !! a = Some p
               ∧ is_Some (p_grad p))
  ∧ (∀ r s',
       train autograd_example n_correct_example label_size_example None 10
             (PrunningFineTuner_init [(act_example 0 3, 0%nat)]
                                     [(act_example 0 3, 1%nat)] mh.1 mh.2)
       = (r, s') →
       ∀ a, a ∈ features_parameters mh.1 →
            p_data <$> params s' !! a = p_data <$> heap_example !! a).
Proof.
  apply (Model_init_backbone_not_frozen autograd_example n_correct_example
           label_size_example false features_example [1%nat] (λ _ _, tt)
           heap_example (λ _, 1%Q)).
  - intros a Ha. vm_compute in Ha.
    apply elem_of_cons in Ha as [->|Ha]; [|by apply elem_of_nil in Ha].
    eexists. split; [reflexivity|reflexivity].
  - intros a Ha. vm_compute in Ha.
    apply elem_of_cons in Ha as [->|Ha]; [|by apply elem_of_nil in Ha].
    apply (bool_decide_unpack _). by vm_compute.
Defined.

(** C10 as stated fails: in the initial fine-tuning of the example the
    backbone parameter requires a gradient and has received one, and its
    tensor is what it was, while the tensor of the classifier parameter has
    changed. *)
Lemma initial_fine_tuning_leaves_backbone :
  let run := train autograd_example n_correct_example label_size_example
                   None 10 tuner_example in
  run.1 = Ok tt
  ∧ requires_grad <$> params run.2 !! 0%nat = Some true
  ∧ p_grad <$> params run.2 !! 0%nat = Some (Some 1%Q)
  ∧ p_data <$> params run.2 !! 0%nat = p_data <$> params tuner_example !! 0%nat
  ∧ p_data <$> params run.2 !! 1%nat ≠ p_data <$> params tuner_example !! 1%nat.
Proof. vm_compute. split_and!; done. Qed.

(** * Further properties of the ranker *)

Section ForwardMore.
Context {T : Type} `{Scalar T}.

Lemma forward_loop_no_conv (modules : list (nat * Layer T)) (x : tensor T)
    (activation_index : pyval) (s : FilterPrunner T) :
  Forall (λ lm, is_conv2d lm.2 = false) modules →
  forward_loop modules x activation_index s
  = (Ok (foldl (λ x lm, call lm.2 x) x modules), s).
Proof.
  intros Hno. revert x. induction Hno as [|[layer module] rest Hm _ IH];
    intros x; [done|].
  cbn [forward_loop foldl]. cbn in Hm. rewrite Hm. apply IH.
Qed.

Lemma foldl_call_imap (g : nat → nat) (features : list (Layer T))
    (x : tensor T) :
  foldl (λ x (lm : nat * Layer T), call lm.2 x) x (imap (λ i m, (g i, m)) features)
  = foldl (λ x m, call m x) x features.
Proof.
  revert g x. induction features as [|m features IH]; intros g x; [done|].
  cbn [imap foldl]. apply (IH (g ∘ S)).
Qed.

(** What [forward] does to a ranker whatever the backbone is. *)
Lemma forward_loop_frame (modules : list (nat * Layer T)) (x : tensor T)
    (activation_index : list Z) (s : FilterPrunner T) :
  let run := forward_loop modules x (PyList activation_index) s in
  filter_ranks run.2 = filter_ranks s
  ∧ grad_index run.2 = grad_index s
  ∧ gradients run.2 = gradients s
  ∧ activation_to_layer run.2 = activation_to_layer s
  ∧ (length (activations run.2) ≤ S (length (activations s)))%nat.
Proof.
  revert x s. induction modules as [|[layer module] rest IH]; intros x s.
  - cbn. split_and!; try done. lia.
  - cbn [forward_loop]. destruct (is_conv2d module); [|apply IH].
    unfold mbind, M_bind, modify, get, lift. cbn -[length].
    split_and!; try done. rewrite length_app. cbn. lia.
Qed.
End ForwardMore.

(** X1: on a backbone without convolutional layer, [forward] returns the
    output of the head on the result of the layers applied in order; it
    stores no activation, maps nothing to a layer, installs no hook and
    leaves the rank table as it is. *)
Theorem forward_without_conv {T : Type} `{Scalar T} {Out : Type}
    (features : list (Layer T)) (head : tensor T → Out) (x : tensor T)
    (s : FilterPrunner T) :
  Forall (λ module, is_conv2d module = false) features →
  forward features head x s
  = (Ok (head (foldl (λ x module, call module x) x features)),
     {| activations := []; gradients := []; grad_index := 0;
        activation_to_layer := ∅; filter_ranks := filter_ranks s;
        hooked := hooked s |}).
Proof.
  intros Hno. unfold forward.
  unfold mbind at 1 2 3 4 5, M_bind at 1 2 3 4 5, modify. cbn beta iota.
  rewrite forward_loop_no_conv.
  - cbn. by rewrite (foldl_call_imap (λ i, i)).
  - apply Forall_forall. intros [i m] Hin.
    apply list_elem_of_lookup in Hin as [j Hj].
    rewrite list_lookup_imap in Hj.
    destruct (features !! j) as [m'|] eqn:Hm; [|done]. injection Hj as <- <-.
    rewrite Forall_forall in Hno. apply Hno.
    apply list_elem_of_lookup. by exists j.
Qed.

Lemma forward_without_conv_witness :
  forward [ {| is_conv2d := false; call := λ t, t |} ] (λ t, size1 t)
          (act_example 0 3) ranker_example
  = (Ok 3%nat,
     {| activations := []; gradients := []; grad_index := 0;
        activation_to_layer := ∅;
        filter_ranks := filter_ranks ranker_example;
        hooked := hooked ranker_example |}).
Proof.
  apply (forward_without_conv
           [ {| is_conv2d := false; call := λ t : tensor Z, t |} ]
           (λ t, size1 t) (act_example 0 3) ranker_example).
  repeat constructor.
Defined.

(** X2: whatever the backbone and the batch are, and whether it returns or
    fails, [forward] leaves the rank table as it is, resets the callback
    counter and the gradient list, maps no activation to a layer and stores
    at most one activation. *)
Theorem forward_frame {T : Type} `{Scalar T} {Out : Type}
    (features : list (Layer T)) (head : tensor T → Out) (x : tensor T)
    (s : FilterPrunner T) :
  let run := forward features head x s in
  filter_ranks run.2 = filter_ranks s
  ∧ grad_index run.2 = 0
  ∧ gradients run.2 = []
  ∧ activation_to_layer run.2 = ∅
  ∧ (length (activations run.2) ≤ 1)%nat.
Proof.
  intros run. split_and!.
  all: unfold run, forward;
    unfold mbind at 1 2 3 4 5, M_bind at 1 2 3 4 5, modify; cbn beta iota;
    match goal with
    | |- context [forward_loop ?m ?y (PyList ?l) ?s0] =>
        pose proof (forward_loop_frame m y l s0) as Hf;
        destruct (forward_loop m y (PyList l) s0) as [[z|e] s1]
    end; cbn in *; destruct Hf as (H1 & H2 & H3 & H4 & H5);
    rewrite ?H1, ?H2, ?H3, ?H4; first [done|lia].
Qed.

Section ComputeRankMore.
Context {T : Type} `{Scalar T}.
Implicit Types (s : FilterPrunner T).

Lemma py_getitem_out_of_range {A : Type} (l : list A) (i : Z) :
  i < - Z.of_nat (length l) ∨ Z.of_nat (length l) ≤ i →
  py_getitem l i = Raise IndexError.
Proof.
  intros Hi. unfold py_getitem. destruct (Z.ltb_spec i 0) as [Hneg|Hpos].
  - destruct (Z.ltb_spec (i + Z.of_nat (length l)) 0) as [|Hj]; [done|].
    exfalso. lia.
  - destruct (Z.ltb_spec i 0); [lia|].
    rewrite (proj2 (lookup_ge_None l (Z.to_nat i))); [done|lia].
Qed.

Lemma py_getitem_negative {A : Type} (l : list A) (i : Z) (x : A) :
  - Z.of_nat (length l) ≤ i < 0 →
  l !! Z.to_nat (i + Z.of_nat (length l)) = Some x →
  py_getitem l i = Ok x.
Proof.
  intros Hi Hx. unfold py_getitem.
  rewrite (proj2 (Z.ltb_lt i 0)) by lia.
  rewrite (proj2 (Z.ltb_ge (i + Z.of_nat (length l)) 0)) by lia.
  by rewrite Hx.
Qed.

(** One callback, by the activation that the index selects. *)
Lemma compute_rank_at s (grad act : tensor T) :
  let idx := Z.of_nat (length (activations s)) - grad_index s - 1 in
  py_getitem (activations s) idx = Ok act →
  (∀ v, filter_ranks s !! idx = Some v → length v = size1 act) →
  compute_rank grad s
  = (Ok tt,
     set_grad_index (λ k, k + 1)
       (set_filter_ranks
          (λ m, <[idx := vadd (default (zeros (size1 act)) (m !! idx))
                              (mean_023 (tmul act grad))]> m) s)).
Proof.
  intros idx Hact Hshape. unfold compute_rank.
  unfold mbind, M_bind, get, lift, modify, mret, M_ret. cbn beta iota.
  fold idx. rewrite Hact.
  destruct (filter_ranks s !! idx) as [v|] eqn:Hentry.
  - rewrite decide_False by done. cbn. rewrite Hentry.
    rewrite viadd_same_length by (rewrite mean_023_length; by apply Hshape).
    unfold set_grad_index, set_filter_ranks. cbn. by rewrite Hentry.
  - rewrite decide_True by done. cbn. rewrite lookup_insert_eq.
    rewrite viadd_same_length
      by (rewrite mean_023_length; apply length_replicate).
    cbn. unfold set_grad_index, set_filter_ranks. cbn.
    by rewrite insert_insert_eq, Hentry.
Qed.
End ComputeRankMore.

(** X3: a callback that arrives when the counter is negative, or is at
    least twice the number of recorded activations (in particular when no
    activation is recorded), raises [IndexError] and changes nothing. *)
Theorem compute_rank_IndexError {T : Type} `{Scalar T} (grad : tensor T)
    (s : FilterPrunner T) :
  grad_index s < 0 ∨ 2 * Z.of_nat (length (activations s)) ≤ grad_index s →
  compute_rank grad s = (Raise IndexError, s).
Proof.
  intros Hk. unfold compute_rank.
  unfold mbind, M_bind, get, lift. cbn beta iota.
  rewrite py_getitem_out_of_range; [done|lia].
Qed.

Lemma compute_rank_IndexError_witness :
  compute_rank (act_example 0 3) ranker_example
  = (Raise IndexError, ranker_example).
Proof.
  apply (compute_rank_IndexError (act_example 0 3) ranker_example).
  right. simpl. lia.
Defined.

(** X4: a callback beyond the last expected one does not fail.  With [L]
    recorded activations and the counter at [k], [L <= k < 2L], the index
    [L - 1 - k] is negative and Python counts it from the end: the gradient
    is paired with the activation at position [2L - 1 - k], and the score is
    added to the rank table under the negative key [L - 1 - k]. *)
Theorem compute_rank_wraps_around {T : Type} `{Scalar T} (grad act : tensor T)
    (s : FilterPrunner T) (k : nat) :
  let L := length (activations s) in
  let key := Z.of_nat L - 1 - Z.of_nat k in
  grad_index s = Z.of_nat k →
  (L ≤ k < 2 * L)%nat →
  activations s !! (2 * L - 1 - k)%nat = Some act →
  (∀ v, filter_ranks s !! key = Some v → length v = size1 act) →
  key < 0
  ∧ compute_rank grad s
    = (Ok tt,
       set_grad_index (λ _, Z.of_nat k + 1)
         (set_filter_ranks
            (λ m, <[key := vadd (default (zeros (size1 act)) (m !! key))
                                (mean_023 (tmul act grad))]> m) s)).
Proof.
  intros L key Hk HkL Hact Hshape. split; [unfold key; lia|].
  assert (Hidx : Z.of_nat (length (activations s)) - grad_index s - 1 = key)
    by (unfold key, L; lia).
  rewrite (compute_rank_at s grad act).
  - rewrite Hidx. unfold set_grad_index, set_filter_ranks. cbn.
    by rewrite Hk.
  - rewrite Hidx. apply py_getitem_negative; [unfold key, L in *; lia|].
    replace (Z.to_nat (key + Z.of_nat (length (activations s))))
      with (2 * L - 1 - k)%nat by (unfold key, L; lia).
    done.
  - by rewrite Hidx.
Qed.

Lemma compute_rank_wraps_around_witness :
  let s := set_grad_index (λ _, 2)
             (set_activations
                (λ _, [act_example 1 2; act_example 2 1]) ranker_example) in
  (2 - 1 - 2 < 0)
  ∧ compute_rank (act_example 3 1) s
    = (Ok tt,
       set_grad_index (λ _, 2 + 1)
         (set_filter_ranks
            (λ m, <[2 - 1 - 2 :=
                      vadd (default (zeros (size1 (act_example 2 1)))
                                    (m !! (2 - 1 - 2)))
                           (mean_023 (tmul (act_example 2 1)
                                           (act_example 3 1)))]> m) s)).
Proof.
  intros s.
  apply (compute_rank_wraps_around (act_example 3 1) (act_example 2 1) s 2).
  - reflexivity.
  - unfold s. simpl. lia.
  - reflexivity.
  - intros v Hv. vm_compute in Hv. discriminate Hv.
Defined.

(** X5: when the rank table already has an entry for the layer whose length
    differs from the channel count of the activation, and the importance
    vector cannot be broadcast (the channel count is not 1), the in-place
    addition raises [RuntimeError]; the table and the callback counter are
    left as they were. *)
Theorem compute_rank_shape_mismatch {T : Type} `{Scalar T}
    (grad act : tensor T) (s : FilterPrunner T) (v : list T) :
  let idx := Z.of_nat (length (activations s)) - grad_index s - 1 in
  py_getitem (activations s) idx = Ok act →
  filter_ranks s !! idx = Some v →
  length v ≠ size1 act →
  size1 act ≠ 1%nat →
  compute_rank grad s = (Raise RuntimeError, s).
Proof.
  intros idx Hact Hv Hlen Hone. unfold compute_rank.
  unfold mbind, M_bind, get, lift, modify, mret, M_ret. cbn beta iota.
  fold idx. rewrite Hact. rewrite decide_False by (rewrite Hv; done).
  cbn. rewrite Hv. unfold viadd. rewrite mean_023_length.
  change (size1 (tmul act grad)) with (size1 act).
  rewrite (proj2 (Nat.eqb_neq (size1 act) (length v))) by done.
  pose proof (mean_023_length (tmul act grad)) as Hm.
  change (size1 (tmul act grad)) with (size1 act) in Hm.
  destruct (mean_023 (tmul act grad)) as [|t [|t' ts]]; cbn in Hm;
    [done|congruence|done].
Qed.

Lemma compute_rank_shape_mismatch_witness :
  compute_rank (act_example 3 2)
    (set_activations (λ _, [act_example 1 2]) ranker_example)
  = (Raise RuntimeError,
     set_activations (λ _, [act_example 1 2]) ranker_example).
Proof.
  apply (compute_rank_shape_mismatch (act_example 3 2) (act_example 1 2)
           (set_activations (λ _, [act_example 1 2]) ranker_example)
           [4; 1; 0]).
  - reflexivity.
  - reflexivity.
  - vm_compute. lia.
  - vm_compute. lia.
Defined.

(** * Further properties of the planner *)

Section LowestMore.
Context {T : Type} `{Scalar T}.
Implicit Types (a2l : gmap Z nat) (v : list T).

Lemma rows_result a2l i j v (e : exn) :
  rows a2l i j v = Raise e → e = KeyError ∧ v ≠ [] ∧ a2l !! i = None.
Proof.
  destruct v as [|score v]; [done|]. cbn [rows].
  destruct (a2l !! i) as [l|] eqn:Hl.
  - rewrite (rows_covered a2l i l v Hl). done.
  - by intros [= <-].
Qed.

Lemma collect_uncovered a2l (items : list (Z * list T)) :
  (∃ i v, (i, v) ∈ items ∧ v ≠ [] ∧ a2l !! i = None) →
  collect a2l items = Raise KeyError.
Proof.
  induction items as [|[i0 v0] items IH]; intros (i & v & Hin & Hv & Hi).
  - by apply elem_of_nil in Hin.
  - cbn [collect]. destruct (rows a2l i0 0 v0) as [here|e] eqn:Hrows.
    + cbn. rewrite IH; [done|].
      apply elem_of_cons in Hin as [Heq|Hin]; [|by exists i, v].
      injection Heq as -> ->. destruct v0 as [|score v0]; [done|].
      cbn in Hrows. by rewrite Hi in Hrows.
    + by apply rows_result in Hrows as (-> & _).
Qed.
End LowestMore.

(** X6: [lowest_ranking_filters], and with it [get_prunning_plan], raises
    [KeyError] exactly when the rank table has a non-empty entry whose
    activation index [activation_to_layer] does not map; otherwise both
    return a list. *)
Theorem lowest_ranking_filters_KeyError {T : Type} `{Scalar T}
    (s : FilterPrunner T) (num : nat) :
  ((∃ i v, filter_ranks s !! i = Some v ∧ v ≠ []
           ∧ activation_to_layer s !! i = None) →
   lowest_ranking_filters s num = Raise KeyError
   ∧ get_prunning_plan s num = Raise KeyError)
  ∧ ((∀ i v, filter_ranks s !! i = Some v → v ≠ [] →
             is_Some (activation_to_layer s !! i)) →
     ∃ triples,
       lowest_ranking_filters s num = Ok triples
       ∧ get_prunning_plan s num = Ok (plan_of triples)).
Proof.
  split.
  - intros (i & v & Hi & Hv & Hnone).
    assert (Hlow : lowest_ranking_filters s num = Raise KeyError).
    { unfold lowest_ranking_filters. rewrite collect_uncovered; [done|].
      exists i, v. split; [|done]. unfold sorted_items.
      rewrite sorted_perm. by apply elem_of_map_to_list. }
    split; [done|]. unfold get_prunning_plan. by rewrite Hlow.
  - intros Hcov.
    assert (Hlow : ∃ triples, lowest_ranking_filters s num = Ok triples).
    { unfold lowest_ranking_filters. rewrite collect_covered; [by eexists|].
      intros i v Hin. apply Hcov. unfold sorted_items in Hin.
      rewrite sorted_perm in Hin. by apply elem_of_map_to_list in Hin. }
    destruct Hlow as [triples Hlow]. exists triples. split; [done|].
    unfold get_prunning_plan. by rewrite Hlow.
Qed.

Section PlanMore.
Context {T : Type} `{Scalar T}.
Implicit Types (d : list (nat * list nat)) (ts : list (triple T)).

Lemma adjust_length (fs : list nat) : length (adjust fs) = length fs.
Proof. unfold adjust. by rewrite length_imap, sorted_length. Qed.

Lemma dict_append_layers l f d :
  (e ← dict_append l f d; replicate (length e.2) e.1)
  ≡ₚ l :: (e ← d; replicate (length e.2) e.1).
Proof.
  induction d as [|[l' fs] d IH]; [done|].
  cbn [dict_append]. destruct (Nat.eqb_spec l l') as [->|Hne].
  - rewrite !bind_cons. cbn [fst snd]. rewrite length_app. cbn [length].
    rewrite Nat.add_1_r. cbn [replicate]. done.
  - rewrite !bind_cons, IH. cbn [fst snd].
    by rewrite Permutation_middle.
Qed.

Lemma group_by_layer_layers ts :
  (e ← group_by_layer ts; replicate (length e.2) e.1) ≡ₚ ts.*1.*1.
Proof.
  unfold group_by_layer. induction ts as [|t ts IH] using rev_ind; [done|].
  rewrite foldl_snoc, dict_append_layers, IH, !fmap_app. cbn.
  by rewrite <- Permutation_cons_append.
Qed.

Lemma plan_of_layers ts : (plan_of ts).*1 = (e ← group_by_layer ts;
                                            replicate (length e.2) e.1).
Proof.
  unfold plan_of. induction (group_by_layer ts) as [|[l fs] d IH]; [done|].
  rewrite fmap_cons, !bind_cons, fmap_app, IH. cbn [fst snd]. f_equal.
  rewrite <- list_fmap_compose, <- (adjust_length fs).
  generalize (adjust fs). intros adj. induction adj as [|a adj IHa]; [done|].
  cbn. by rewrite <- IHa.
Qed.

Lemma strictly_sorted_lookup_from (l : list nat) :
  StronglySorted lt l →
  ∀ (base i f : nat),
    Forall (λ y, (base ≤ y)%nat) l → l !! i = Some f → (base + i ≤ f)%nat.
Proof.
  induction 1 as [|x l Hs IH Hx]; intros base i f Hb Hi; [done|].
  apply Forall_cons in Hb as [Hbx Hb].
  destruct i as [|i]; cbn in Hi.
  - injection Hi as <-. lia.
  - assert (S base + i ≤ f)%nat; [|lia]. apply IH; [|done].
    eapply Forall_impl; [exact Hx|]. cbn. lia.
Qed.

Lemma strictly_sorted_lookup (l : list nat) :
  StronglySorted lt l → ∀ i f, l !! i = Some f → (i ≤ f)%nat.
Proof.
  intros Hs i f Hi.
  apply (strictly_sorted_lookup_from l Hs 0 i f); [|done].
  apply Forall_forall. intros. lia.
Qed.
End PlanMore.

Lemma elem_of_plan_of {T : Type} `{Scalar T} (ts : list (triple T))
    (l : nat) (a : Z) :
  (l, a) ∈ plan_of ts →
  ∃ (i f : nat),
    sorted Nat.leb (selected_in l ts) !! i = Some f
    ∧ a = Z.of_nat f - Z.of_nat i.
Proof.
  unfold plan_of. intros Hin.
  apply list_elem_of_bind in Hin as ([l' adj] & Hin & Hgrp). cbn in Hin.
  apply list_elem_of_fmap in Hin as (a' & Heq & Ha).
  apply list_elem_of_fmap in Hgrp as ([l'' fs] & Heq' & Hgrp).
  cbn in Heq'. simplify_eq.
  apply (dict_get_elem_of l'' fs _ (group_by_layer_NoDup ts)) in Hgrp as Hget.
  rewrite group_by_layer_get in Hget. subst fs.
  unfold adjust in Ha. apply list_elem_of_lookup in Ha as [i Hi].
  rewrite list_lookup_imap in Hi. apply fmap_Some in Hi as (f & Hf & ->).
  exists i, f. split; [exact Hf|done].
Qed.

(** X7: the plan removes from every layer as many filters as were selected
    in it: the layers of the pairs of the plan are, up to order, the layers
    of the selected triples, whether or not the selection has repetitions. *)
Theorem get_prunning_plan_layer_counts {T : Type} `{Scalar T}
    (s : FilterPrunner T) (num : nat) (triples : list (triple T)) :
  lowest_ranking_filters s num = Ok triples →
  ∃ plan,
    get_prunning_plan s num = Ok plan
    ∧ plan.*1 ≡ₚ triples.*1.*1
    ∧ length plan = length triples.
Proof.
  intros Hlow. exists (plan_of triples).
  assert (Hperm : (plan_of triples).*1 ≡ₚ triples.*1.*1)
    by by rewrite plan_of_layers, group_by_layer_layers.
  split_and!.
  - unfold get_prunning_plan. by rewrite Hlow.
  - done.
  - rewrite <- (length_fmap fst (plan_of triples)), Hperm.
    by rewrite !length_fmap.
Qed.

Lemma get_prunning_plan_layer_counts_witness :
  ∃ plan,
    get_prunning_plan ranker_example 6 = Ok plan
    ∧ plan.*1 ≡ₚ [0%nat; 0%nat; 2%nat; 2%nat; 2%nat; 0%nat]
    ∧ length plan = 6%nat.
Proof.
  apply (get_prunning_plan_layer_counts ranker_example 6
           [(0%nat, 2%nat, 0); (0%nat, 1%nat, 1); (2%nat, 1%nat, 1);
            (2%nat, 3%nat, 1); (2%nat, 4%nat, 3); (0%nat, 0%nat, 4)]).
  vm_compute. reflexivity.
Defined.

(** X8: when the selected (layer, index) pairs are distinct, every index of
    the plan is non-negative: it is a selected index of its layer minus a
    shift that is at most that index and less than the number of filters
    selected in the layer. *)
Theorem plan_indices_bounds {T : Type} `{Scalar T} (triples : list (triple T))
    (l : nat) (a : Z) :
  NoDup (triples.*1) →
  (l, a) ∈ plan_of triples →
  0 ≤ a
  ∧ ∃ (f shift : nat) score,
      (l, f, score) ∈ triples
      ∧ a = Z.of_nat f - Z.of_nat shift
      ∧ (shift ≤ f)%nat
      ∧ (shift < length (selected_in l triples))%nat.
Proof.
  intros Hnd Hin. destruct (elem_of_plan_of triples l a Hin) as (i & f & Hf & ->).
  assert (Hif : (i ≤ f)%nat).
  { apply (strictly_sorted_lookup (sorted Nat.leb (selected_in l triples)));
      [|done].
    apply sorted_nat_strict. by apply selected_in_NoDup. }
  split; [lia|].
  assert (Hsel : f ∈ selected_in l triples).
  { rewrite <- (sorted_perm Nat.leb). by eapply list_elem_of_lookup_2. }
  apply elem_of_selected_in in Hsel as [score Hsc].
  exists f, i, score. split_and!; [done|done|done|].
  apply lookup_lt_Some in Hf. by rewrite sorted_length in Hf.
Qed.

Lemma plan_indices_bounds_witness :
  0 ≤ 2
  ∧ ∃ (f shift : nat) score,
      (7%nat, f, score) ∈ [(7%nat, 3%nat, 0); (7%nat, 1%nat, 0)]
      ∧ 2 = Z.of_nat f - Z.of_nat shift
      ∧ (shift ≤ f)%nat
      ∧ (shift < length (selected_in 7
                           [(7%nat, 3%nat, 0); (7%nat, 1%nat, 0)]))%nat.
Proof.
  apply (plan_indices_bounds [(7%nat, 3%nat, 0); (7%nat, 1%nat, 0)] 7 2).
  - apply (bool_decide_unpack _). by vm_compute.
  - vm_compute. apply elem_of_cons. right. apply elem_of_cons. by left.
Defined.

(** * Further properties of the orchestrator *)

Section ParamMore.
Context {V : Type} `{ParamOps V}.
Implicit Types (h : gmap nat (Param V)) (ps : list nat).

Lemma foldl_alter_field {B : Type} (proj : Param V → B)
    (f : nat → Param V → Param V) ps h (b : nat) :
  (∀ a p, proj (f a p) = proj p) →
  proj <$> foldl (λ h a, alter (f a) a h) h ps !! b = proj <$> h !! b.
Proof.
  intros Hf. revert h. induction ps as [|a ps IH]; intros h; [done|].
  cbn [foldl]. rewrite IH. destruct (decide (a = b)) as [->|Hne].
  - rewrite lookup_alter_eq. destruct (h !! b); simpl; [|done]. by rewrite Hf.
  - by rewrite lookup_alter_ne.
Qed.

Lemma zero_grad_field {B : Type} (proj : Param V → B) ps h (b : nat) :
  (∀ g p, proj (set_p_grad g p) = proj p) →
  proj <$> zero_grad ps h !! b = proj <$> h !! b.
Proof.
  intros Hp. unfold zero_grad.
  apply (foldl_alter_field proj (λ _ p, set_p_grad _ p)). intros _ p. apply Hp.
Qed.

Lemma backward_field {B : Type} (proj : Param V → B) (g : nat → V) ps h
    (b : nat) :
  (∀ g p, proj (set_p_grad g p) = proj p) →
  proj <$> backward g ps h !! b = proj <$> h !! b.
Proof.
  intros Hp. unfold backward.
  apply (foldl_alter_field proj
           (λ a p, if requires_grad p then set_p_grad _ p else p)).
  intros a p. destruct (requires_grad p); [apply Hp|done].
Qed.

Lemma step_param_field {B : Type} (proj : Param V → B) (lr momentum : Q)
    (st : gmap nat (Param V) * gmap nat V) (a b : nat) :
  (∀ v p, proj (set_p_data v p) = proj p) →
  proj <$> (step_param lr momentum st a).1 !! b = proj <$> st.1 !! b.
Proof.
  intros Hp. destruct st as [h bufs]. unfold step_param.
  destruct (h !! a) as [p|] eqn:Ha; [|done]. destruct (p_grad p); [|done].
  cbn [fst]. destruct (decide (a = b)) as [->|Hne].
  - by rewrite lookup_insert_eq, Ha; cbn; rewrite Hp.
  - by rewrite lookup_insert_ne.
Qed.

Lemma SGD_step_field {B : Type} (proj : Param V → B) (o : SGD V) h (b : nat) :
  (∀ v p, proj (set_p_data v p) = proj p) →
  proj <$> (SGD_step o h).2 !! b = proj <$> h !! b.
Proof.
  intros Hp. unfold SGD_step.
  assert (Hfold : ∀ ps st,
            proj <$> (foldl (step_param (o_lr o) (o_momentum o)) st ps).1 !! b
            = proj <$> st.1 !! b).
  { induction ps as [|a ps IH]; intros st; [done|].
    cbn [foldl]. rewrite IH. by apply step_param_field. }
  specialize (Hfold (o_params o) (h, o_buf o)).
  by destruct (foldl _ _ _).
Qed.

Lemma setattr_all_requires_grad (v : bool) ps h (b : nat) p :
  b ∈ ps → h !! b = Some p →
  requires_grad <$> setattr_all "requires_grad" v ps h !! b = Some v.
Proof.
  intros Hin Hb. unfold setattr_all.
  rewrite (foldl_alter_lookup (λ _, setattr "requires_grad" v)), Hb.
  destruct (filter_eq_length_pos ps b Hin) as [n ->].
  cbn [fmap option_fmap option_map]. rewrite Nat.iter_succ.
  unfold setattr at 1. by rewrite decide_True.
Qed.

Lemma setattr_all_other (name : string) (v : bool) ps h (b : nat) :
  b ∉ ps → setattr_all name v ps h !! b = h !! b.
Proof.
  intros Hb. unfold setattr_all.
  rewrite (foldl_alter_lookup (λ _, setattr name v)).
  replace (filter (λ a, a = b) ps) with (@nil nat).
  - cbn. by destruct (h !! b).
  - symmetry. induction ps as [|a ps IH]; [done|].
    apply not_elem_of_cons in Hb as [Hne Hb].
    rewrite filter_cons, decide_False by done. by apply IH.
Qed.
End ParamMore.

Section PlainRuns.
Context {T : Type} `{Scalar T} {V : Type} `{ParamOps V}.
Context {Label Logits : Type}.
Context (autograd :
  gmap nat (Param V) → Model T V Logits → tensor T → Label → nat → V).
Context (n_correct :
  gmap nat (Param V) → Model T V Logits → tensor T → Label → nat).
Context (label_size : Label → nat).
Implicit Types (s : PrunningFineTuner T V Label Logits).

Ltac tc := try (apply _).

#[local] Instance keeps_objects_refl (P : Event T → Prop) :
  Reflexive (@keeps_objects T V Label Logits P).
Proof.
  intros s. split_and!; try done. exists []. by rewrite app_nil_r.
Qed.

#[local] Instance keeps_objects_trans (P : Event T → Prop) :
  Transitive (@keeps_objects T V Label Logits P).
Proof.
  intros s1 s2 s3 (Hm & Htr & Hte & Hp & Hf & (n1 & Ht1 & Hn1) & Hr & Hd)
    (Hm' & Htr' & Hte' & Hp' & Hf' & (n2 & Ht2 & Hn2) & Hr' & Hd').
  split_and!; try congruence.
  all: try (intros a; by rewrite ?Hr', ?Hr, ?Hd', ?Hd).
  exists (n1 ++ n2). rewrite Ht2, Ht1, app_assoc. split; [done|].
  by apply Forall_app.
Qed.

Lemma keeps_set_params (P : Event T → Prop) f s :
  (∀ a, requires_grad <$> f (params s) !! a
        = requires_grad <$> params s !! a) →
  (∀ a, p_dict <$> f (params s) !! a = p_dict <$> params s !! a) →
  keeps_objects P s (set_params f s).
Proof.
  intros Hr Hd. split_and!; try done. exists []. by rewrite app_nil_r.
Qed.

Lemma keeps_set_training (P : Event T → Prop) f s :
  keeps_objects P s (set_training f s).
Proof. split_and!; try done. exists []. by rewrite app_nil_r. Qed.

Lemma keeps_log (P : Event T → Prop) (e : Event T) s :
  P e → keeps_objects P s (set_trace (λ t, t ++ [e]) s).
Proof.
  intros He. split_and!; try done. exists [e]. split; [done|].
  by apply Forall_singleton.
Qed.

Lemma keeps_test s :
  spec_at (keeps_objects plain_event) s (test n_correct label_size)
          (λ _, True).
Proof.
  unfold test. apply spec_modify_bind; tc; [apply keeps_set_training|].
  apply spec_get_bind. destruct (foldl _ _ _) as [correct total].
  eapply spec_bind; tc.
  - case_decide; [apply spec_raise; tc|].
    by apply (spec_ret _ _ _ (λ _, True)); tc.
  - intros [] s1 _ _. unfold log.
    apply spec_modify_bind; tc; [by apply keeps_log|].
    apply spec_modify; tc; [apply keeps_set_training|done].
Qed.

Lemma keeps_train_batch optimizer batch label s :
  spec_at (keeps_objects plain_event) s
          (train_batch autograd optimizer batch label false)
          (λ r, is_Some r).
Proof.
  unfold train_batch. apply spec_get_bind.
  apply spec_modify_bind; tc.
  { apply keeps_set_params; intros a; by apply zero_grad_field. }
  cbn zeta. apply spec_get_bind.
  apply spec_modify_bind; tc.
  { apply keeps_set_params; intros a; by apply backward_field. }
  unfold log. apply spec_modify_bind; tc; [by apply keeps_log|].
  destruct optimizer as [o|]; [|apply spec_raise; tc].
  apply spec_get_bind.
  set (s1 := set_trace _ _).
  pose proof (SGD_step_field requires_grad o (params s1)) as Hr.
  pose proof (SGD_step_field p_dict o (params s1)) as Hd.
  destruct (SGD_step o (params s1)) as [o' h]. cbn [fst snd] in Hr, Hd.
  apply spec_modify_bind; tc.
  { apply keeps_set_params; intros a; [by apply Hr|by apply Hd]. }
  apply spec_modify_bind; tc; [by apply keeps_log|].
  by apply spec_ret; tc.
Qed.

Lemma keeps_train_batches data optimizer s :
  spec_at (keeps_objects plain_event) s
          (train_batches autograd data optimizer false)
          (λ r, is_Some optimizer → is_Some r).
Proof.
  revert optimizer s. induction data as [|[batch label] data IH];
    intros optimizer s.
  - by apply spec_ret; tc.
  - cbn [train_batches]. eapply spec_bind; tc.
    + apply keeps_train_batch.
    + intros o' s1 _ Ho'. cbn beta in Ho'.
      eapply spec_weaken; [apply IH|]. intros r Hr _. by apply Hr.
Qed.

Lemma keeps_train_epoch optimizer s :
  spec_at (keeps_objects plain_event) s
          (train_epoch autograd optimizer false)
          (λ r, is_Some optimizer → is_Some r).
Proof.
  unfold train_epoch. apply spec_get_bind. unfold log.
  apply spec_modify_bind; tc; [by apply keeps_log|].
  apply keeps_train_batches.
Qed.

Lemma keeps_train_epochs epochs optimizer s :
  spec_at (keeps_objects plain_event) s
          (train_epochs autograd n_correct label_size epochs optimizer)
          (λ _, True).
Proof.
  revert optimizer s. induction epochs as [|epochs IH]; intros optimizer s.
  - by apply spec_ret; tc.
  - cbn [train_epochs]. eapply spec_bind; tc; [apply keeps_train_epoch|].
    intros o' s1 _ _. eapply spec_bind; tc; [apply keeps_test|].
    intros [] s2 _ _. apply IH.
Qed.

Lemma keeps_train optimizer epochs s :
  spec_at (keeps_objects plain_event) s
          (train autograd n_correct label_size optimizer epochs) (λ _, True).
Proof.
  unfold train. eapply spec_bind with (Q := λ _, True); tc.
  - destruct optimizer as [o|]; [by apply spec_ret; tc|].
    apply spec_get_bind. by apply spec_lift; tc.
  - intros o s1 _ _. apply keeps_train_epochs.
Qed.

End PlainRuns.

Lemma bind_unfold {S A B : Type} (m : M S A) (k : A → M S B) (s : S) :
  (m ≫= k) s
  = match m s with
    | (Ok a, s1) => k a s1
    | (Raise e, s1) => (Raise e, s1)
    end.
Proof. done. Qed.

Lemma modify_bind {S B : Type} (f : S → S) (k : unit → M S B) (s : S) :
  (modify f ≫= k) s = k tt (f s).
Proof. done. Qed.

Lemma get_bind {S B : Type} (k : S → M S B) (s : S) :
  (get ≫= k) s = k s s.
Proof. done. Qed.

Lemma ret_bind {S A B : Type} (a : A) (k : A → M S B) (s : S) :
  (mret a ≫= k) s = k a s.
Proof. done. Qed.

Lemma lift_bind {S A B : Type} (r : result A) (k : A → M S B) (s : S) :
  (lift r ≫= k) s
  = match r with
    | Ok a => k a s
    | Raise e => (Raise e, s)
    end.
Proof. by destruct r. Qed.

Lemma spec_at_weaken_rel {S A : Type} (R R' : S → S → Prop) (s : S)
    (m : M S A) (Q : A → Prop) :
  spec_at R s m Q → (∀ s', R s s' → R' s s') → spec_at R' s m Q.
Proof.
  intros Hm HR r s' Hrun. destruct (Hm r s' Hrun) as [Hs HQ].
  split; [by apply HR|done].
Qed.

Lemma forward_filter_ranks {T : Type} `{Scalar T} {Out : Type}
    (features : list (Layer T)) (head : tensor T → Out) (x : tensor T)
    (s : FilterPrunner T) :
  filter_ranks (forward features head x s).2 = filter_ranks s.
Proof.
  unfold forward. unfold mbind at 1 2 3 4 5, M_bind at 1 2 3 4 5, modify.
  cbn beta iota.
  match goal with
  | |- context [forward_loop ?m ?y (PyList ?l) ?s0] =>
      pose proof (forward_loop_frame m y l s0) as (Hf & _);
      destruct (forward_loop m y (PyList l) s0) as [[z|e] s1]
  end; cbn in *; by rewrite Hf.
Qed.

Lemma total_num_filters_zero {T V Label Logits : Type}
    (s : PrunningFineTuner T V Label Logits) :
  total_num_filters s = 0.
Proof.
  unfold total_num_filters.
  assert (Hfold : ∀ (mods : list (Module T V)) (fitlers : Z),
            (foldl (λ (vars : Z * Z) md,
                      let '(filters, fitlers) := vars in
                      match conv2d md with
                      | Some out_channels =>
                          (filters, filters + Z.of_nat out_channels)
                      | None => (filters, fitlers)
                      end) (0, fitlers) mods).1 = 0).
  { induction mods as [|md mods IH]; intros fitlers; [done|].
    cbn [foldl]. destruct (conv2d md); apply IH. }
  specialize (Hfold (features (model s)) 0).
  by destruct (foldl _ _ _).
Qed.

Section OrchestratorMore.
Context {T : Type} `{Scalar T} {V : Type} `{ParamOps V}.
Context {Label Logits : Type}.
Context (autograd :
  gmap nat (Param V) → Model T V Logits → tensor T → Label → nat → V).
Context (n_correct :
  gmap nat (Param V) → Model T V Logits → tensor T → Label → nat).
Context (label_size : Label → nat).
Implicit Types (s : PrunningFineTuner T V Label Logits).

(** X11: [test] on an empty test loader raises [ZeroDivisionError].  When
    [test] returns, the loader held at least one example, the accuracy
    printed is the one of the counts over the loader, the model is back in
    training mode and nothing else has changed.  When [test] fails, the
    model is left in evaluation mode and nothing else has changed. *)
Theorem test_outcome s :
  let counts := accuracy_counts n_correct label_size s in
  (test_data_loader s = [] →
   test n_correct label_size s
   = (Raise ZeroDivisionError, set_training (λ _, false) s))
  ∧ (∀ s', test n_correct label_size s = (Ok tt, s') →
       counts.2 ≠ 0%nat
       ∧ test_data_loader s ≠ []
       ∧ s' = set_training (λ _, true)
                (set_trace (λ t, t ++ [EvAccuracy counts.1 counts.2]) s))
  ∧ (∀ e s', test n_correct label_size s = (Raise e, s') →
       s' = set_training (λ _, false) s).
Proof.
  intros counts.
  assert (Hempty : test_data_loader s = [] → counts.2 = 0%nat).
  { intros Hnil. unfold counts, accuracy_counts. by rewrite Hnil. }
  revert Hempty.
  unfold test, mbind, M_bind, modify, get, log, raise, mret, M_ret. cbn.
  fold (accuracy_counts n_correct label_size s). fold counts.
  destruct counts as [correct total]. cbn. intros Hempty.
  split_and!.
  - intros Hnil. by rewrite decide_True by by apply Hempty.
  - intros s'. case_decide as Htotal; [done|]. intros [= <-].
    split_and!; [done| |done]. intros Hnil. by apply Htotal, Hempty.
  - intros e s'. case_decide; [|done]. by intros [= _ <-].
Qed.

(** X12: [train_epoch] called without optimizer outside ranking mode, as
    its defaults have it, returns on an empty training loader; on any other
    it raises [AttributeError] at [optimizer.step()] of the first batch,
    after the backward pass, and the tensor of every parameter is what it
    was. *)
Theorem train_epoch_without_optimizer s :
  (train_data_loader s = [] →
   train_epoch autograd None false s
   = (Ok None,
      set_trace (λ t, t ++ [EvEpoch false (filter_ranks (prunner s))]) s))
  ∧ (train_data_loader s ≠ [] →
     ∃ s',
       train_epoch autograd None false s = (Raise AttributeError, s')
       ∧ trace s'
         = trace s ++ [EvEpoch false (filter_ranks (prunner s)); EvBackward]
       ∧ ∀ a, p_data <$> params s' !! a = p_data <$> params s !! a).
Proof.
  split.
  - intros Hempty. unfold train_epoch, mbind, M_bind, get, log, modify.
    cbn. by rewrite Hempty.
  - intros Hne. destruct (train_data_loader s) as [|[batch label] rest] eqn:Hd;
      [done|].
    unfold train_epoch, mbind, M_bind, get, log, modify. cbn. rewrite Hd.
    cbn [train_batches]. unfold train_batch.
    unfold mbind, M_bind, get, log, modify, raise. cbn.
    eexists. split; [reflexivity|]. cbn. split.
    + by rewrite <- app_assoc.
    + intros a. by rewrite backward_data, zero_grad_data.
Qed.

(** X13: [train] with its default optimizer on a model whose [classifier]
    has no parameters, as that of a [MobileModel], raises [ValueError] when
    it builds the optimizer, before any epoch. *)
Theorem train_without_classifier_parameters (epochs : nat) s :
  classifier (model s) = [] →
  train autograd n_correct label_size None epochs s = (Raise ValueError, s)
  ∧ ∀ (mobilenet_features : list (Module T V)) (fc : list nat)
      (hd : gmap nat (Param V) → tensor T → Logits) (h : gmap nat (Param V)),
      classifier (MobileModel_init mobilenet_features fc hd h).1 = [].
Proof.
  intros Hc. split; [|done].
  unfold train, mbind, M_bind, get, lift. cbn. by rewrite Hc.
Qed.
End OrchestratorMore.

Lemma train_without_classifier_parameters_witness :
  let mh := MobileModel_init features_example [1%nat] (λ _ _, tt)
                             heap_example in
  let s := PrunningFineTuner_init [(act_example 0 3, 0%nat)]
                                  [(act_example 0 3, 1%nat)] mh.1 mh.2 in
  train autograd_example n_correct_example label_size_example None 10 s
  = (Raise ValueError, s).
Proof.
  intros mh s.
  apply (train_without_classifier_parameters autograd_example
           n_correct_example label_size_example 10 s).
  reflexivity.
Defined.

Section PruneMore.
Context {T : Type} `{Scalar T} {V : Type} `{ParamOps V}.
Context {Label Logits : Type}.
Context (autograd :
  gmap nat (Param V) → Model T V Logits → tensor T → Label → nat → V).
Context (n_correct :
  gmap nat (Param V) → Model T V Logits → tensor T → Label → nat).
Context (label_size : Label → nat).
Implicit Types (s : PrunningFineTuner T V Label Logits).

Ltac tc := try (apply _).

#[local] Instance keeps_model_refl (P : Event T → Prop) :
  Reflexive (@keeps_model T V Label Logits P).
Proof. intros s. split_and!; try done. exists []. by rewrite app_nil_r. Qed.

#[local] Instance keeps_model_trans (P : Event T → Prop) :
  Transitive (@keeps_model T V Label Logits P).
Proof.
  intros s1 s2 s3 (Hm & Hp & (n1 & Ht1 & Hn1)) (Hm' & Hp' & (n2 & Ht2 & Hn2)).
  split_and!; try congruence.
  exists (n1 ++ n2). rewrite Ht2, Ht1, app_assoc. split; [done|].
  by apply Forall_app.
Qed.

Lemma keeps_objects_model (P : Event T → Prop) s s' :
  keeps_objects P s s' → keeps_model P s s'.
Proof. intros (Hm & _ & _ & Hp & _ & Ht & _). by split_and!. Qed.

Lemma prune_iterations_none s :
  prune_iterations autograd
    (Z.to_nat (prune_iteration_count (total_num_filters s) (Z.of_nat 512)))
    512
  = mret tt.
Proof. by rewrite total_num_filters_zero. Qed.

Lemma keeps_prune s :
  spec_at (keeps_model plain_event) s (prune autograd n_correct label_size)
          (λ _, True).
Proof.
  unfold prune.
  eapply spec_bind; tc.
  { eapply spec_at_weaken_rel; [apply keeps_test|].
    intros s'. apply keeps_objects_model. }
  intros [] s1 _ _.
  apply spec_modify_bind; tc; [by split_and!; try done; exists []; rewrite app_nil_r|].
  apply spec_get_bind.
  apply spec_modify_bind; tc; [by split_and!; try done; exists []; rewrite app_nil_r|].
  apply spec_get_bind. cbn zeta. rewrite prune_iterations_none.
  eapply spec_bind; tc; [by apply (spec_ret _ _ _ (λ _, True)); tc|].
  intros [] s2 _ _. apply spec_get_bind. apply spec_lift_bind; tc.
  intros o Ho. eapply spec_bind; tc.
  { eapply spec_at_weaken_rel; [apply keeps_train|].
    intros s'. apply keeps_objects_model. }
  intros [] s3 _ _. apply spec_get_bind. unfold torch_save.
  apply spec_modify; tc; [|done].
  split_and!; try done. exists []. by rewrite app_nil_r.
Qed.

(** X14: [get_candidates_to_prune] never returns a plan and never
    accumulates a score: whatever the training loader holds, the call ends
    with an exception and leaves the rank table empty.  On an empty
    training loader the exception is the [NameError] for
    [num_filter_to_prune]. *)
Theorem get_candidates_to_prune_leaves_no_scores (num : nat) s :
  let run := get_candidates_to_prune autograd num s in
  (∃ e, run.1 = Raise e)
  ∧ filter_ranks (prunner run.2) = ∅
  ∧ (train_data_loader s = [] →
     run.1 = Raise (NameError "num_filter_to_prune")).
Proof.
  intros run. unfold run, get_candidates_to_prune, train_epoch.
  unfold mbind, M_bind, get, modify, log, on_prunner, raise. cbn.
  destruct (train_data_loader s) as [|[batch label] rest] eqn:Hd.
  - cbn. split_and!; [by eexists|by rewrite fmap_empty|done].
  - cbn [train_batches]. unfold train_batch.
    unfold mbind, M_bind, get, modify, log, on_prunner, raise. cbn.
    match goal with
    | |- context [forward ?f ?h ?x ?p] =>
        pose proof (forward_filter_ranks f h x p) as Hranks;
        destruct (forward f h x p) as [[out|e] p']
    end; cbn in *.
    + split_and!; [by eexists|done|done].
    + split_and!; [by eexists|done|done].
Qed.

(** X15: [train], for any optimizer and any number of epochs, and whether
    it returns or fails, changes tensors, gradients, training mode and trace
    only: the model, the loaders, the ranker, the files and every
    parameter's [requires_grad] flag and instance dictionary are what they
    were, and it starts no ranking epoch and never runs the forward pass of
    the ranker. *)
Theorem train_keeps_objects (optimizer : option (SGD V)) (epochs : nat) s :
  let run := train autograd n_correct label_size optimizer epochs s in
  keeps_objects plain_event s run.2.
Proof.
  intros run. destruct run as [r s'] eqn:Hrun.
  by destruct (keeps_train autograd n_correct label_size optimizer epochs
                 s r s' Hrun).
Qed.

(** X16: [prune] never ranks and never removes a filter: whether it
    returns or fails, the model and the ranker are what they were, no
    ranking epoch is started and the forward pass of the ranker is never
    run. *)
Theorem prune_never_prunes s :
  let run := prune autograd n_correct label_size s in
  model run.2 = model s
  ∧ prunner run.2 = prunner s
  ∧ (∃ new, trace run.2 = trace s ++ new
            ∧ ∀ ev, ev ∈ new →
                    ev ≠ EvRankerForward ∧ ∀ ranks, ev ≠ EvEpoch true ranks).
Proof.
  intros run. destruct run as [r s'] eqn:Hrun.
  destruct (keeps_prune s r s' Hrun) as [(Hm & Hp & (new & Ht & Hnew)) _].
  split_and!; [done|done|].
  exists new. split; [done|]. intros ev Hev.
  rewrite Forall_forall in Hnew. specialize (Hnew ev Hev).
  destruct ev; cbn in Hnew; try done. subst. done.
Qed.

(** X17: when [prune] returns, every backbone parameter has
    [requires_grad] true, whatever it was before (the loop of [prune]
    assigns the attribute under its right name); the flag of every other
    parameter is what it was. *)
Theorem prune_unfreezes_backbone s s' (a : nat) :
  prune autograd n_correct label_size s = (Ok tt, s') →
  is_Some (params s !! a) →
  requires_grad <$> params s' !! a
  = if decide (a ∈ features_parameters (model s)) then Some true
    else requires_grad <$> params s !! a.
Proof.
  intros Hrun Ha. unfold prune in Hrun.
  apply bind_Ok_inv in Hrun as ([] & s1 & Htest & Hrun).
  destruct (keeps_test n_correct label_size s _ _ Htest)
    as [(Hm1 & _ & _ & _ & _ & _ & Hr1 & _) _].
  apply bind_Ok_inv in Hrun as ([] & s2 & [= <-] & Hrun).
  apply bind_Ok_inv in Hrun as (? & ? & [= <- <-] & Hrun).
  apply bind_Ok_inv in Hrun as ([] & s3 & [= <-] & Hrun).
  apply bind_Ok_inv in Hrun as (? & ? & [= <- <-] & Hrun).
  cbn zeta in Hrun. rewrite prune_iterations_none in Hrun.
  apply bind_Ok_inv in Hrun as ([] & s4 & [= <-] & Hrun).
  apply bind_Ok_inv in Hrun as (? & ? & [= <- <-] & Hrun).
  apply bind_Ok_inv in Hrun as (o & s5 & Hinit & Hrun).
  unfold lift in Hinit. injection Hinit as Hinit <-.
  apply bind_Ok_inv in Hrun as ([] & s6 & Htrain & Hrun).
  destruct (keeps_train autograd n_correct label_size _ _ _ _ _ Htrain)
    as [(_ & _ & _ & _ & _ & _ & Hr6 & _) _].
  apply bind_Ok_inv in Hrun as (? & ? & [= <- <-] & Hrun).
  unfold torch_save, modify in Hrun. injection Hrun as <-.
  cbn. rewrite Hr6. cbn. rewrite Hm1.
  case_decide as Hin.
  - assert (is_Some (params s1 !! a)) as [p Hp].
    { specialize (Hr1 a). destruct Ha as [p0 Hp0]. rewrite Hp0 in Hr1.
      destruct (params s1 !! a); [by eexists|done]. }
    by apply (setattr_all_requires_grad true _ _ a p).
  - rewrite setattr_all_other by done. apply Hr1.
Qed.
End PruneMore.

Lemma prune_unfreezes_backbone_witness :
  let s' := (prune autograd_example n_correct_example label_size_example
                   tuner_example).2 in
  requires_grad <$> params s' !! 0%nat
  = if decide (0%nat ∈ features_parameters (model tuner_example))
    then Some true
    else requires_grad <$> params tuner_example !! 0%nat.
Proof.
  intros s'.
  apply (prune_unfreezes_backbone autograd_example n_correct_example
           label_size_example tuner_example s' 0).
  - unfold s'. vm_compute. reflexivity.
  - vm_compute. by eexists.
Defined.

(** * Properties of the entry point *)

Section MainFacts.
Context {T : Type} `{Scalar T} {V : Type} `{ParamOps V}.
Context {Label Logits : Type}.
Context (autograd :
  gmap nat (Param V) → Model T V Logits → tensor T → Label → nat → V).
Context (n_correct :
  gmap nat (Param V) → Model T V Logits → tensor T → Label → nat).
Context (label_size : Label → nat).
Implicit Types (s : PrunningFineTuner T V Label Logits).

(** The files after [prune]: the artifact is written by its last statement
    only. *)
Lemma prune_cases s :
  (∃ e s1, prune autograd n_correct label_size s = (Raise e, s1)
           ∧ files s1 = files s)
  ∨ (∃ s4, prune autograd n_correct label_size s
           = (Ok tt,
              set_files (λ fs, <["model_prunned" :=
                                   SavedBoundMethod (model s4) (params s4)
                                                    "state_dict"]> fs) s4)
           ∧ files s4 = files s).
Proof.
  unfold prune. rewrite bind_unfold.
  destruct (test n_correct label_size s) as [[[]|e] s1] eqn:Htest;
    destruct (keeps_test n_correct label_size s _ _ Htest)
      as [(_ & _ & _ & _ & Hf1 & _) _]; [|left; by eexists _, _].
  rewrite modify_bind, get_bind, modify_bind, get_bind. cbn zeta.
  rewrite prune_iterations_none, ret_bind, get_bind, lift_bind.
  match goal with
  | |- context [SGD_init ?ps ?lr ?mo] => destruct (SGD_init ps lr mo) as [o|e]
  end; [|left; by eexists _, _].
  rewrite bind_unfold.
  match goal with
  | |- context [train ?ag ?nc ?ls ?o ?n ?s0] =>
      destruct (train ag nc ls o n s0) as [[[]|e] s3] eqn:Htrain;
      destruct (keeps_train ag nc ls _ _ _ _ _ Htrain)
        as [(_ & _ & _ & _ & Hf3 & _) _]
  end.
  - right. exists s3. rewrite get_bind. split; [done|]. by rewrite Hf3.
  - left. eexists _, _. split; [done|]. by rewrite Hf3.
Qed.

Lemma prune_files s :
  let run := prune autograd n_correct label_size s in
  files run.2
  = match run.1 with
    | Ok _ => <["model_prunned" :=
                  SavedBoundMethod (model run.2) (params run.2) "state_dict"]>
              (files s)
    | Raise _ => files s
    end.
Proof.
  cbn zeta. destruct (prune_cases s) as [(e & s1 & -> & Hf)|(s4 & -> & Hf)].
  - done.
  - cbn. by rewrite Hf.
Qed.

(** X19: [main] in train mode.  A fine-tuner is built on the model of
    [Model()]; when the run returns, the only file written is
    [model/vgg.pth] and it holds the whole model, not a state dict; when it
    fails, no file is written.  In both cases the backbone tensors are the
    pretrained ones if the classifier's parameters are none of the
    backbone's. *)
Theorem main_train_mode (args : Args)
    (vgg16_features : list (Module T V)) (fc : list nat)
    (hd : gmap nat (Param V) → tensor T → Logits) (h0 : gmap nat (Param V))
    (torch_load : string → result (Model T V Logits * gmap nat (Param V)))
    (train_loader test_loader : list (tensor T * Label)) :
  a_train args = true →
  let run := main autograd n_correct label_size args vgg16_features fc hd h0
                  torch_load train_loader test_loader in
  ∃ s,
    run.2 = Some s
    ∧ model s = (Model_init vgg16_features fc hd h0).1
    ∧ (run.1 = Ok tt →
       files s = {["model/vgg.pth" := SavedModel (model s) (params s)]})
    ∧ (∀ e, run.1 = Raise e → files s = ∅)
    ∧ ((∀ a, a ∈ features_parameters (model s) → a ∉ fc) →
       ∀ a, a ∈ features_parameters (model s) →
            p_data <$> params s !! a = p_data <$> h0 !! a).
Proof.
  intros Htrain run. unfold run, main, Model_init. rewrite Htrain.
  cbn beta iota zeta.
  match goal with
  | |- context [PrunningFineTuner_init ?a ?b ?c ?d] =>
      set (ft := PrunningFineTuner_init a b c d)
  end.
  rewrite bind_unfold.
  destruct (train autograd n_correct label_size None 10 ft)
    as [[[]|e] s1] eqn:Hrun.
  - destruct (keeps_train autograd n_correct label_size _ _ _ _ _ Hrun)
      as [(Hm & _ & _ & _ & Hf & _) _].
    rewrite get_bind. unfold torch_save, modify.
    eexists. split; [reflexivity|]. cbn. split_and!.
    + exact Hm.
    + intros _. rewrite Hf. cbn. by rewrite insert_empty.
    + by intros e [=].
    + intros Hfc a Ha. rewrite Hm in Hfc, Ha.
      rewrite (train_default_spares autograd n_correct label_size
                 (λ a, a ∈ features_parameters (model ft)) 10 ft (Ok tt) s1);
        [| |exact Hrun|exact Ha].
      * cbn. apply setattr_all_data.
      * intros b Hb. cbn. by apply Hfc.
  - destruct (keeps_train autograd n_correct label_size _ _ _ _ _ Hrun)
      as [(Hm & _ & _ & _ & Hf & _) _].
    eexists. split; [reflexivity|]. cbn. split_and!.
    + exact Hm.
    + by intros [=].
    + intros e' _. by rewrite Hf.
    + intros Hfc a Ha. rewrite Hm in Hfc, Ha.
      rewrite (train_default_spares autograd n_correct label_size
                 (λ a, a ∈ features_parameters (model ft)) 10 ft (Raise e) s1);
        [| |exact Hrun|exact Ha].
      * cbn. apply setattr_all_data.
      * intros b Hb. cbn. by apply Hfc.
Qed.

(** X20: [main] in prune mode on a loaded model.  The model the fine-tuner
    ends with is the loaded one, with all its layers; when the run returns,
    the only file written is [model_prunned], holding the method object;
    when it fails, no file is written. *)
Theorem main_prune_mode (args : Args)
    (vgg16_features : list (Module T V)) (fc : list nat)
    (hd : gmap nat (Param V) → tensor T → Logits) (h0 : gmap nat (Param V))
    (torch_load : string → result (Model T V Logits * gmap nat (Param V)))
    (train_loader test_loader : list (tensor T * Label))
    (m : Model T V Logits) (h : gmap nat (Param V)) :
  a_train args = false →
  a_prune args = true →
  torch_load "model" = Ok (m, h) →
  let run := main autograd n_correct label_size args vgg16_features fc hd h0
                  torch_load train_loader test_loader in
  ∃ s,
    run.2 = Some s
    ∧ model s = m
    ∧ (run.1 = Ok tt →
       files s = {["model_prunned" :=
                     SavedBoundMethod m (params s) "state_dict"]})
    ∧ (∀ e, run.1 = Raise e → files s = ∅).
Proof.
  intros Htrain Hprune Hload run. unfold run, main.
  rewrite Htrain, Hprune, Hload. cbn beta iota zeta.
  set (ft := PrunningFineTuner_init train_loader test_loader m h).
  pose proof (prune_files ft) as Hfiles. cbn zeta in Hfiles.
  destruct (prune autograd n_correct label_size ft) as [r s] eqn:Hrun.
  destruct (keeps_prune autograd n_correct label_size ft r s Hrun)
    as [(Hm & _) _].
  exists s. cbn in *. split_and!; [done|done| |].
  - intros ->. rewrite Hfiles, Hm. by rewrite insert_empty.
  - intros e ->. by rewrite Hfiles.
Qed.
End MainFacts.

Lemma main_train_mode_witness :
  let run := main autograd_example n_correct_example label_size_example
                  (get_args true false false false) features_example
                  [1%nat] (λ _ _, tt) heap_example (λ _, Raise ValueError)
                  [(act_example 0 3, 0%nat)] [(act_example 0 3, 1%nat)] in
  ∃ s,
    run.2 = Some s
    ∧ model s = (Model_init features_example [1%nat] (λ _ _, tt)
                            heap_example).1
    ∧ (run.1 = Ok tt →
       files s = {["model/vgg.pth" := SavedModel (model s) (params s)]})
    ∧ (∀ e, run.1 = Raise e → files s = ∅)
    ∧ ((∀ a, a ∈ features_parameters (model s) → a ∉ [1%nat]) →
       ∀ a, a ∈ features_parameters (model s) →
            p_data <$> params s !! a = p_data <$> heap_example !! a).
Proof.
  apply (main_train_mode autograd_example n_correct_example
           label_size_example (get_args true false false false)).
  reflexivity.
Defined.

Lemma main_prune_mode_witness :
  let run := main autograd_example n_correct_example label_size_example
                  (get_args false true false false) features_example
                  [1%nat] (λ _ _, tt) heap_example (λ _, Ok model_example)
                  [(act_example 0 3, 0%nat)] [(act_example 0 3, 1%nat)] in
  ∃ s,
    run.2 = Some s
    ∧ model s = model_example.1
    ∧ (run.1 = Ok tt →
       files s = {["model_prunned" :=
                     SavedBoundMethod model_example.1 (params s)
                                      "state_dict"]})
    ∧ (∀ e, run.1 = Raise e → files s = ∅).
Proof.
  apply (main_prune_mode autograd_example n_correct_example
           label_size_example (get_args false true false false)
           features_example [1%nat] (λ _ _, tt) heap_example
           (λ _, Ok model_example) _ _ model_example.1 model_example.2).
  - reflexivity.
  - reflexivity.
  - reflexivity.
Defined.
